(** * clino: command resolution, dispatch, help and exit codes

    A shallow embedding of the Go package [clino] (clino.go, the help
    renderer and exit.go) together with the properties its specification
    states about it. *)

From Stdlib Require Import ZArith.
From stdpp Require Import base strings list gmap.

Local Open Scope string_scope.
Local Open Scope list_scope.
Local Set Warnings "-register-all".

(** ** Text helpers *)

(** Characters that cannot be written inside a string literal. *)
Definition nl : string := String (Ascii.ascii_of_nat 10) EmptyString.
Definition tab : string := String (Ascii.ascii_of_nat 9) EmptyString.
Definition dquote : string := String (Ascii.ascii_of_nat 34) EmptyString.

(** [strings.Join(elems, sep)]. *)
Fixpoint strings_Join (elems : list string) (sep : string) : string :=
  match elems with
  | [] => ""
  | [e] => e
  | e :: rest => e +:+ sep +:+ strings_Join rest sep
  end.

(** [strings.HasPrefix(s, prefix)]. *)
Definition strings_HasPrefix (s prefix : string) : bool := String.prefix prefix s.

(** A function value or interface value is not nil. *)
Definition isSome {A : Type} (o : option A) : bool :=
  match o with Some _ => true | None => false end.

(** ** Errors (package errors, fmt.Errorf, flag.ErrHelp, exit.go) *)

(** [syscall.WaitStatus], seen through the two methods [ExitCode] calls. *)
Record WaitStatus := { Exited : bool; ExitStatus : Z }.

(** [os.ProcessState]: [Sys()] is [Some ws] when the system-dependent value
    is a [syscall.WaitStatus] (the type assertion of [ExitCode] succeeds). *)
Record ProcessState := { Sys : option WaitStatus }.

(** The error values the program builds or inspects.  [ExitError] is the
    struct of exit.go (its [Err] may be nil); [wrapError] is any error
    with an [Unwrap] method such as the result of [fmt.Errorf] with the
    wrapping verb; [exec_ExitError] is [*exec.ExitError], which has no
    [Unwrap]. *)
Inductive error : Type :=
| errorString (s : string)
| flag_ErrHelp
| ExitError (Code : Z) (Err : option error)
| exec_ExitError (ps : ProcessState)
| wrapError (msg : string) (err : error).

(** [errors.Unwrap]. *)
Definition Unwrap (e : error) : option error :=
  match e with
  | ExitError _ inner => inner
  | wrapError _ inner => Some inner
  | _ => None
  end.

(** [errors.As(err, &ee)] with [ee] an [ExitError]: the first error of the
    chain that is an [ExitError]; the result is its [Code]. *)
Fixpoint As_ExitError (e : error) : option Z :=
  match e with
  | ExitError code _ => Some code
  | wrapError _ inner => As_ExitError inner
  | _ => None
  end.

(** [errors.As(err, &xe)] with [xe] an [*exec.ExitError]. *)
Fixpoint As_exec_ExitError (e : error) : option ProcessState :=
  match e with
  | exec_ExitError ps => Some ps
  | wrapError _ inner => As_exec_ExitError inner
  | ExitError _ (Some inner) => As_exec_ExitError inner
  | _ => None
  end.

(** [err == nil]. *)
Definition isNil (err : option error) : bool :=
  match err with None => true | Some _ => false end.

(** [ExitCode] of exit.go; [None] is the nil error. *)
Definition ExitCode (err : option error) : Z :=
  match err with
  | None => 0
  | Some e =>
    match As_ExitError e with
    | Some code => code
    | None =>
      match As_exec_ExitError e with
      | Some xe =>
        match Sys xe with
        | Some ws => if Exited ws then ExitStatus ws else 1
        | None => 1
        end
      | None => 1
      end
    end
  end%Z.

(** The chain of an error: the error itself, then what [Unwrap] gives,
    repeatedly.  An error is or wraps [x] when [x] is in its chain. *)
Fixpoint chain (e : error) : list error :=
  e :: match e with
       | ExitError _ (Some inner) => chain inner
       | wrapError _ inner => chain inner
       | _ => []
       end.

Definition is_ExitError (e : error) : Prop := ∃ code inner, e = ExitError code inner.
Definition is_exec_ExitError (e : error) : Prop := ∃ ps, e = exec_ExitError ps.

(** The child process of [ps] exited normally with status [status]. *)
Definition exited_normally (ps : ProcessState) (status : Z) : Prop :=
  ∃ ws, Sys ps = Some ws ∧ Exited ws = true ∧ ExitStatus ws = status.

(** ** The flag package and the output sink

    The standard [flag] package, [text/tabwriter] and the few [fmt] and
    [reflect] services the program calls are outside the repository; the
    program is modelled over any implementation of them. *)
Class FlagPackage : Type := {
  (** [*flag.FlagSet], by its current contents. *)
  FlagSet : Type;
  (** [flag.NewFlagSet("", flag.ContinueOnError)] followed by
      [SetOutput(ioutil.Discard)]. *)
  NewFlagSet : FlagSet;
  (** [fs.Parse(arguments)]: the flag set after parsing, and the error. *)
  Parse : FlagSet -> list string -> FlagSet * option error;
  (** [fs.Args()]: the non-flag arguments left by [Parse]. *)
  Args : FlagSet -> list string;
  (** [*flag.Flag], and [fs.VisitAll] as the list of flags it visits. *)
  Flag : Type;
  VisitAll : FlagSet -> list Flag;
  flag_Name : Flag -> string;
  flag_DefValue : Flag -> string;
  (** [flag.UnquoteUsage(f)]: the type name and the usage text. *)
  UnquoteUsage : Flag -> string * string;
  (** The [String()] of the zero value of the flag's [Value] type, which
      [isZeroValue] builds by reflection. *)
  zeroValueString : Flag -> string;
  (** The verb of [fmt] that quotes a string. *)
  fmt_quote : string -> string;
  (** [tabwriter.NewWriter(h.Output, 0, 0, 8, ' ', 0)] then [w.Flush()],
      applied to the text written to [w]: the aligned text that reached
      the output and the error of the flush. *)
  tabwriter_Flush : string -> string * option error;
}.

(** [io.Writer] values a [Program] can hold as its [Output]. *)
Inductive Writer : Type :=
| os_Stdout
| user_Writer (id : nat).

Section Clino.
Context `{FP : FlagPackage}.

(** ** Commands

    A command is a value of the interface [Command] ([Name]); each of the
    other interfaces ([Shorter], [Longer], [Footer], [Parent], [FlagSet],
    [PersistentFlagSet], [Runnable]) is implemented or not, which the
    program finds out by type assertion.  A field is [Some] when the
    interface is implemented.  A flag contributor receives the flag set
    and registers its flags in it; an action receives the parsed flag set
    (where its flag variables live) and the arguments. *)
Inductive Command : Type := mkCommand {
  Name : string;
  Short : option string;
  Long : option string;
  Foot : option string;
  Commands : option (list Command);
  Flags : option (FlagSet -> FlagSet);
  PersistentFlags : option (FlagSet -> FlagSet);
  Run : option (FlagSet -> list string -> option error);
}.

(** [Program] of clino.go. *)
Record Program : Type := mkProgram {
  Root : option Command;
  GlobalFlags : option (FlagSet -> FlagSet);
  Output : option Writer;
  fs : option FlagSet;
}.

(** The range loop of [checkDuplicated] over the children, with the set
    [m] of the names seen so far; [rec] is the recursive call.  The
    result is [Some msg] when the function panics with [msg]. *)
Definition checkDuplicated_range (rec : Command -> list string -> option string)
    (trail : list string) : list Command -> gset string -> option string :=
  fix range (cs : list Command) (m : gset string) : option string :=
    match cs with
    | [] => None
    | c :: rest =>
      let name := Name c in
      let cmdtrail := trail ++ [name] in
      if decide (name ∈ m) then
        Some ("command implemented multiple times: '" +:+ strings_Join cmdtrail " " +:+ "'")
      else
        match rec c cmdtrail with
        | Some msg => Some msg
        | None => range rest ({[name]} ∪ m)
        end
    end.

Fixpoint checkDuplicated (cmd : Command) (trail : list string) {struct cmd} : option string :=
  match Commands cmd with
  | None => None
  | Some cs => checkDuplicated_range checkDuplicated trail cs ∅
  end.

Definition isRunnable (cmd : Command) : bool := isSome (Run cmd).

(** The type assertion [cmd.(Parent)] succeeds. *)
Definition isParent (cmd : Command) : bool := isSome (Commands cmd).

Definition commandNotFound (binary : string) (trail : list string) : error :=
  errorString ("unknown command: '" +:+ strings_Join (binary :: trail) " " +:+ "'").

Definition skipHelpCommand (args : list string) : list string :=
  match args with
  | arg :: rest => if String.eqb arg "help" then rest else args
  | [] => args
  end.

Fixpoint getCommand (commands : list Command) (name : string) : option Command :=
  match commands with
  | [] => None
  | c :: rest => if String.eqb name (Name c) then Some c else getCommand rest name
  end.

Definition getSubcommands (cmd : Command) : list Command :=
  match Commands cmd with
  | Some cs => cs
  | None => []
  end.

(** The loop of [walkCommand]: the commands appended to the trail after
    the root. *)
Fixpoint walkCommand_loop (current : list Command) (names : list string) : list Command :=
  match names with
  | [] => []
  | name :: rest =>
    match getCommand current name with
    | None => []
    | Some c => c :: walkCommand_loop (getSubcommands c) rest
    end
  end.

(** [p.walkCommand(commands, names)], with [root] for [p.Root]. *)
Definition walkCommand (root : Command) (commands : list Command) (names : list string)
    : list Command :=
  root :: walkCommand_loop commands names.

Fixpoint getCommandArgs (args : list string) : list string :=
  match args with
  | [] => []
  | arg :: rest =>
    if strings_HasPrefix arg "-" then [] else arg :: getCommandArgs rest
  end.

(** [p.loadCommand(ctx, args)]. *)
Definition loadCommand (root : Command) (args : list string) : list Command :=
  walkCommand root (getSubcommands root) (getCommandArgs args).

(** [trail[len(trail)-1]]; the trail is never empty, [root] is only the
    default that the type asks for. *)
Definition terminal (root : Command) (trail : list Command) : Command :=
  List.last trail root.

(** ** The help renderer *)

Record helper : Type := mkHelper {
  h_Long : option string;
  h_Foot : option string;
  h_Commands : list Command;
  h_binary : string;
  h_trail : list string;
  h_args : list string;
  h_runnable : bool;
  h_usable : bool;
  h_fs : option FlagSet;
}.

Fixpoint argumentsNonFlags (args : list string) : list string :=
  match args with
  | [] => []
  | arg :: rest =>
    if strings_HasPrefix arg "-" then [] else arg :: argumentsNonFlags rest
  end.

Definition isZeroValue (f : Flag) (value : string) : bool :=
  String.eqb value (zeroValueString f).

Definition printFlag (f : Flag) : string :=
  let '(typ, usage) := UnquoteUsage f in
  let head :=
    if String.eqb typ "" then tab +:+ "-" +:+ flag_Name f +:+ tab +:+ usage
    else tab +:+ "-" +:+ flag_Name f +:+ " (" +:+ typ +:+ ")" +:+ tab +:+ usage in
  if isZeroValue f (flag_DefValue f) then head +:+ nl
  else if String.eqb typ "string" then
    head +:+ " (default " +:+ fmt_quote (flag_DefValue f) +:+ ")" +:+ nl
  else head +:+ " (default " +:+ flag_DefValue f +:+ ")" +:+ nl.

(** The text [h.helpCommands(w)] writes to the tab writer. *)
Definition helpCommands (h : helper) : string :=
  match h_Commands h with
  | [] => ""
  | cs =>
    tab +:+ "Commands:" +:+ nl +:+ tab
    +:+ String.concat ""
          (map (fun c => Name c +:+ tab +:+ default "" (Short c) +:+ nl +:+ tab) cs)
    +:+ tab +:+ tab +:+ nl
  end.

(** The text [h.helpFlags(w)] writes to the tab writer. *)
Definition helpFlags (h : helper) : string :=
  tab +:+ "Flags:" +:+ tab +:+ nl
  +:+ match h_fs h with
      | Some flags => String.concat "" (map printFlag (VisitAll flags))
      | None => ""
      end
  +:+ tab +:+ "-help" +:+ tab +:+ "show help message" +:+ nl +:+ nl.

(** The variables [command] and [xcmd] of [helper.Run]. *)
Definition helper_command (h : helper) : string * string :=
  let command := strings_Join (h_trail h) " " in
  if String.eqb command "" then ("<command>", "")
  else if negb (Nat.eqb (length (h_Commands h)) 0) then (command, " <command>")
  else (command, "").

(** What [helper.Run] prints before the tab writer is created: the long
    description and the usage line. *)
Definition helper_long (h : helper) : string :=
  match h_Long h with
  | Some long => long +:+ nl
  | None => ""
  end
  +:+ (if isSome (h_Long h) && h_usable h then nl else "").

Definition helper_usage (h : helper) : string :=
  let '(command, xcmd) := helper_command h in
  if h_usable h then
    "Usage:  " +:+ h_binary h +:+ " " +:+ command +:+ xcmd +:+ " [flags] [arguments]" +:+ nl +:+ nl
  else "".

(** The text written to the tab writer [w] before it is flushed. *)
Definition helper_tabbed (h : helper) : string :=
  let '(command, xcmd) := helper_command h in
  helpCommands h
  +:+ (if h_usable h then helpFlags h else "")
  +:+ (if negb (Nat.eqb (length (h_Commands h)) 0) then
         "Use " +:+ dquote +:+ h_binary h +:+ " help " +:+ command +:+ xcmd +:+ dquote
         +:+ " for more information about that command." +:+ nl
       else "").

(** The body of [helper.Run], before the deferred function: the text
    written to [h.Output] and the error returned. *)
Definition helper_render (h : helper) : string * option error :=
  let '(flushed, ferr) := tabwriter_Flush (helper_tabbed h) in
  let out := helper_long h +:+ helper_usage h +:+ flushed in
  match ferr with
  | Some e => (out, Some e)
  | None =>
    let out := out +:+ match h_Foot h with Some foot => foot +:+ nl | None => "" end in
    if negb (h_usable h) && negb (isSome (h_Long h))
       && negb (isSome (h_Foot h)) then
      (out, Some (errorString ("command or topic '" +:+ strings_Join (h_trail h) " "
                               +:+ "' is missing implementation")))
    else (out, None)
  end.

(** [helper.Run]: the body, then the deferred function on the named
    result [err]. *)
Definition helper_Run (h : helper) : string * option error :=
  let '(out, err) := helper_render h in
  let na := argumentsNonFlags (h_args h) in
  if isNil err && negb (h_runnable h) && Nat.ltb (length (h_trail h)) (length na) then
    (out, Some (commandNotFound (h_binary h) (take (length (h_trail h) + 1) na)))
  else (out, err).

(** ** Dispatch *)

(** [p.runHelp(ctx, args)], with [root] for [p.Root] and [flags] for the
    flag set [p.fs] points to: the text written to [p.Output] and the
    error. *)
Definition runHelp (root : Command) (flags : FlagSet) (args : list string)
    : string * option error :=
  let args :=
    match args with
    | arg :: rest => if String.eqb arg "help" then rest else args
    | [] => args
    end in
  let trail := walkCommand root (getSubcommands root) (getCommandArgs args) in
  let cmd := terminal root trail in
  let breadcrumb := drop 1 (map Name trail) in
  helper_Run {|
    h_Long := Long cmd;
    h_Foot := Foot cmd;
    h_Commands := getSubcommands cmd;
    h_binary := Name root;
    h_trail := breadcrumb;
    h_args := args;
    h_runnable := isRunnable cmd;     (* setUsableHelp *)
    h_usable := isRunnable cmd || isParent cmd;
    h_fs := Some flags;
  |}.

(** The first loop and the first [if] of [runCommand]: every command of
    the trail that implements [PersistentFlagSet] registers its flags,
    then the last command of the trail its [Flags]. *)
Definition registerFlags (root : Command) (trail : list Command) (flags : FlagSet) : FlagSet :=
  let flags :=
    foldl (fun flags c =>
             match PersistentFlags c with
             | Some f => f flags
             | None => flags
             end) flags trail in
  match Flags (terminal root trail) with
  | Some f => f flags
  | None => flags
  end.

(** What one call of [runCommand] leaves behind: the flag set [p.fs]
    points to, the text written to [p.Output], the arguments the action
    of the command was called with (if it was called), and the error
    returned. *)
Record Dispatched : Type := mkDispatched {
  d_fs : FlagSet;
  d_written : string;
  d_invoked : option (list string);
  d_err : option error;
}.

Definition helped (flags : FlagSet) (r : string * option error) : Dispatched :=
  {| d_fs := flags; d_written := r.1; d_invoked := None; d_err := r.2 |}.

(** The rest of [runCommand], from its second [if] on, once the flags
    are registered. *)
Definition dispatch (root : Command) (trail : list Command) (flags : FlagSet)
    (args : list string) : Dispatched :=
  let cmd := terminal root trail in
  if (Nat.eqb (length args) 0 && negb (isRunnable root))
     || (negb (Nat.eqb (length args) 0) && bool_decide (head args = Some "help")) then
    helped flags (runHelp root flags args)
  else
    match Run cmd with
    | Some r =>
      let '(flags, err) := Parse flags (drop (length trail - 1) args) in
      match err with
      | Some flag_ErrHelp => helped flags (runHelp root flags args)
      | Some e => {| d_fs := flags; d_written := ""; d_invoked := None; d_err := Some e |}
      | None =>
        {| d_fs := flags; d_written := ""; d_invoked := Some (Args flags);
           d_err := r flags (Args flags) |}
      end
    | None => helped flags (runHelp root flags args)
    end.

(** [p.runCommand(ctx, args)]. *)
Definition runCommand (root : Command) (flags : FlagSet) (args : list string) : Dispatched :=
  let trail := loadCommand root (skipHelpCommand args) in
  dispatch root trail (registerFlags root trail flags) args.

(** [Run] either panics or returns an error (nil or not). *)
Inductive Result : Type :=
| Panic (msg : string)
| Return (err : option error).

(** What a call of [Program.Run] leaves behind: the [Program] value
    after the call, the text written to its [Output], the arguments the
    action was called with (if it was called), and how the call ended. *)
Record Outcome : Type := mkOutcome {
  final : Program;
  written : string;
  invoked : option (list string);
  result : Result;
}.

(** [p.Run(ctx, args...)]. *)
Definition Program_Run (p : Program) (args : list string) : Outcome :=
  let out := match Output p with Some w => w | None => os_Stdout end in
  let p := {| Root := Root p; GlobalFlags := GlobalFlags p; Output := Some out; fs := fs p |} in
  match Root p with
  | None =>
    {| final := p; written := ""; invoked := None;
       result := Panic "root command not implemented" |}
  | Some root =>
    match checkDuplicated root [Name root] with
    | Some msg => {| final := p; written := ""; invoked := None; result := Panic msg |}
    | None =>
      let flags := NewFlagSet in
      let flags :=
        match GlobalFlags p with
        | Some g => g flags
        | None => flags
        end in
      let d := runCommand root flags args in
      {| final := {| Root := Root p; GlobalFlags := GlobalFlags p; Output := Output p;
                     fs := Some (d_fs d) |};
         written := d_written d; invoked := d_invoked d; result := Return (d_err d) |}
    end
  end.

(** ** Notions of the specification *)

(** [c'] is the first of the commands [cs] named [name]: the child that
    an exact, case-sensitive look-up by name finds. *)
Definition first_named (cs : list Command) (name : string) (c' : Command) : Prop :=
  ∃ l1 l2, cs = l1 ++ c' :: l2 ∧ Name c' = name ∧ ∀ x, x ∈ l1 → Name x ≠ name.

(** [name_chain c names d]: the tokens [names] are a chain of valid child
    names below [c], none of them flag-prefixed, that leads to [d]. *)
Inductive name_chain : Command → list string → Command → Prop :=
| name_chain_nil c : name_chain c [] c
| name_chain_cons c name c' names d :
    strings_HasPrefix name "-" = false →
    first_named (getSubcommands c) name c' →
    name_chain c' names d →
    name_chain c (name :: names) d.

(** The chain stops before [rest]: at the end of the vector, at a
    flag-prefixed token, or at a token that names no child of [d]. *)
Definition stops (d : Command) (rest : list string) : Prop :=
  match rest with
  | [] => True
  | tok :: _ =>
    strings_HasPrefix tok "-" = true ∨ ∀ c, c ∈ getSubcommands d → Name c ≠ tok
  end.

(** [duplicate_at c path]: below [c], following the child names
    [path] but for the last leads to a sibling group in which the last
    name of [path] is the name of two children. *)
Inductive duplicate_at : Command → list string → Prop :=
| duplicate_here c cs l1 x l2 y l3 :
    Commands c = Some cs →
    cs = l1 ++ x :: l2 ++ y :: l3 →
    Name x = Name y →
    duplicate_at c [Name y]
| duplicate_below c cs c' path :
    Commands c = Some cs →
    c' ∈ cs →
    duplicate_at c' path →
    duplicate_at c (Name c' :: path).

(** The panic value of [checkDuplicated] for the path [trail]. *)
Definition implemented_multiple_times (trail : list string) : string :=
  "command implemented multiple times: '" +:+ strings_Join trail " " +:+ "'".

(** The error of a command that is missing implementation. *)
Definition missing_implementation (breadcrumb : list string) : error :=
  errorString ("command or topic '" +:+ strings_Join breadcrumb " "
               +:+ "' is missing implementation").

(** The breadcrumb of a trail: the names of its commands but the root. *)
Definition breadcrumb (trail : list Command) : list string := map Name (tail trail).

(** The flag contributors of an invocation in the order in which the
    program calls them: the global one, the persistent one of every
    command of the trail, the local one of the last command. *)
Definition contributors (p : Program) (root : Command) (trail : list Command)
    : list (FlagSet → FlagSet) :=
  option_list (GlobalFlags p)
  ++ omap PersistentFlags trail
  ++ option_list (Flags (terminal root trail)).

(** The order as the specification words it: of the persistent
    contributors only those of the ancestors, from the root to the
    second-to-last command of the trail. *)
Definition contributors_ancestors_only (p : Program) (root : Command) (trail : list Command)
    : list (FlagSet → FlagSet) :=
  option_list (GlobalFlags p)
  ++ omap PersistentFlags (removelast trail)
  ++ option_list (Flags (terminal root trail)).

(** A fresh flag set to which the contributors are applied in order. *)
Definition compose (fns : list (FlagSet → FlagSet)) : FlagSet :=
  foldl (fun flags f => f flags) NewFlagSet fns.

(** The output sink takes the text flushed to it. *)
Definition flush_succeeds (text : string) : Prop := (tabwriter_Flush text).2 = None.


(** A panic of [checkDuplicated] names a duplicated path. *)
Definition panic_names_duplicate (c : Command) : Prop :=
  ∀ trail msg, checkDuplicated c trail = Some msg →
    ∃ path, duplicate_at c path ∧ msg = implemented_multiple_times (trail ++ path).

(** With a duplicate below it, [checkDuplicated] panics. *)
Definition duplicate_panics (c : Command) : Prop :=
  (∃ path, duplicate_at c path) → ∀ trail, is_Some (checkDuplicated c trail).

(** The helper [runHelp] builds. *)
Definition helper_of (root : Command) (flags : FlagSet) (args : list string) : helper :=
  let trail := loadCommand root args in
  let cmd := terminal root trail in
  {| h_Long := Long cmd; h_Foot := Foot cmd; h_Commands := getSubcommands cmd;
     h_binary := Name root; h_trail := breadcrumb trail; h_args := args;
     h_runnable := isRunnable cmd; h_usable := isRunnable cmd || isParent cmd;
     h_fs := Some flags |}.

(** [h] with other arguments. *)
Definition with_args (h : helper) (args : list string) : helper :=
  {| h_Long := h_Long h; h_Foot := h_Foot h; h_Commands := h_Commands h;
     h_binary := h_binary h; h_trail := h_trail h; h_args := args;
     h_runnable := h_runnable h; h_usable := h_usable h; h_fs := h_fs h |}.

End Clino.

(** ** The tree of commands *)

Section Tree.
Context `{FP : FlagPackage}.

(** [descendant root d]: [d] is [root] or is reached from it through
    child lists. *)
Inductive descendant (root : Command) : Command → Prop :=
| descendant_root : descendant root root
| descendant_child d c :
    descendant root d → c ∈ getSubcommands d → descendant root c.

(** No two children of a command of the tree have the same name. *)
Definition unique_names (root : Command) : Prop :=
  ∀ d, descendant root d → NoDup (map Name (getSubcommands d)).

(** [child_path c cs]: the first of [cs] is a child of [c] and each of
    the others a child of the one before. *)
Fixpoint child_path (c : Command) (cs : list Command) : Prop :=
  match cs with
  | [] => True
  | x :: rest => x ∈ getSubcommands c ∧ child_path x rest
  end.

(** The name can be typed as a path segment: it has no flag prefix. *)
Definition segment_name (c : Command) : Prop := strings_HasPrefix (Name c) "-" = false.

End Tree.

(** ** The earlier version of clino.go

    The file also holds the version of the program from before
    persistent flags: [walkCommand] returns the command and the matched
    names, [loadCommand] and [runCommand] differ, [runHelp] takes the
    names as breadcrumb.  [getCommand], [getCommandArgs],
    [getSubcommands], [skipHelpCommand], [checkDuplicated] and the help
    renderer are the ones above. *)
Module Legacy.
Section Legacy.
Context `{FP : FlagPackage}.

(** The loop of [walkCommand], from the command [cmd] reached so far. *)
Fixpoint walkCommand_loop (cmd : Command) (current : list Command) (names : list string)
    : Command * list string :=
  match names with
  | [] => (cmd, [])
  | name :: rest =>
    match getCommand current name with
    | None => (cmd, [])
    | Some c =>
      let '(last, trail) := walkCommand_loop c (getSubcommands c) rest in
      (last, name :: trail)
    end
  end.

Definition walkCommand (root : Command) (commands : list Command) (names : list string)
    : Command * list string :=
  walkCommand_loop root commands names.

Definition loadCommand (root : Command) (args : list string) : Command * list string :=
  let commands := getSubcommands root in
  if Nat.eqb (length args) 0 then (root, [])
  else walkCommand root commands (getCommandArgs args).

Definition runHelp (root : Command) (flags : FlagSet) (args : list string)
    : string * option error :=
  let args :=
    match args with
    | arg :: rest => if String.eqb arg "help" then rest else args
    | [] => args
    end in
  let '(cmd, trail) := walkCommand root (getSubcommands root) (getCommandArgs args) in
  helper_Run {|
    h_Long := Long cmd;
    h_Foot := Foot cmd;
    h_Commands := getSubcommands cmd;
    h_binary := Name root;
    h_trail := trail;
    h_args := args;
    h_runnable := isRunnable cmd;
    h_usable := isRunnable cmd || isParent cmd;
    h_fs := Some flags;
  |}.

Definition runCommand (root : Command) (flags : FlagSet) (args : list string) : Dispatched :=
  let '(cmd, trail) := loadCommand root (skipHelpCommand args) in
  let flags :=
    match Flags cmd with
    | Some f => f flags
    | None => flags
    end in
  if (Nat.eqb (length args) 0 && negb (isRunnable root))
     || (negb (Nat.eqb (length args) 0) && bool_decide (head args = Some "help")) then
    helped flags (runHelp root flags args)
  else if Nat.eqb (length trail) 0 && negb (isSome (Run root)) then
    helped flags (runHelp root flags args)
  else
    match Run cmd with
    | Some r =>
      let '(flags, err) := Parse flags (drop (length trail) args) in
      match err with
      | Some flag_ErrHelp => helped flags (runHelp root flags args)
      | Some e => {| d_fs := flags; d_written := ""; d_invoked := None; d_err := Some e |}
      | None =>
        {| d_fs := flags; d_written := ""; d_invoked := Some (Args flags);
           d_err := r flags (Args flags) |}
      end
    | None => helped flags (runHelp root flags args)
    end.

Definition Program_Run (p : Program) (args : list string) : Outcome :=
  let out := match Output p with Some w => w | None => os_Stdout end in
  let p := {| Root := Root p; GlobalFlags := GlobalFlags p; Output := Some out; fs := fs p |} in
  match Root p with
  | None =>
    {| final := p; written := ""; invoked := None;
       result := Panic "root command not implemented" |}
  | Some root =>
    match checkDuplicated root [Name root] with
    | Some msg => {| final := p; written := ""; invoked := None; result := Panic msg |}
    | None =>
      let flags := NewFlagSet in
      let flags :=
        match GlobalFlags p with
        | Some g => g flags
        | None => flags
        end in
      let d := runCommand root flags args in
      {| final := {| Root := Root p; GlobalFlags := GlobalFlags p; Output := Output p;
                     fs := Some (d_fs d) |};
         written := d_written d; invoked := d_invoked d; result := Return (d_err d) |}
    end
  end.

End Legacy.
End Legacy.

(** ** A small flag package and the commands of the test suite

    Concrete inputs on which the model is run: a flag package that keeps
    the declared flags in declaration order and parses the dash style of
    the standard one, a tab writer that never fails and does no
    alignment, and the commands the tests of the repository are written
    with. *)
Module Sample.

Record flagdecl : Type := mkFlag {
  f_name : string;
  f_typ : string;          (* empty for a boolean flag *)
  f_usage : string;
  f_default : string;
  f_zero : string;
}.

Record flagset : Type := mkFlagSet {
  declared : list flagdecl;
  remaining : list string;
}.

Definition declare (f : flagdecl) (flags : flagset) : flagset :=
  {| declared := declared flags ++ [f]; remaining := remaining flags |}.

Definition undash (tok : string) : string :=
  if strings_HasPrefix tok "--" then String.substring 2 (String.length tok - 2) tok
  else if strings_HasPrefix tok "-" then String.substring 1 (String.length tok - 1) tok
  else tok.

Definition lookupFlag (flags : flagset) (name : string) : option flagdecl :=
  list_find (fun f => f_name f = name) (declared flags) ≫= fun r => Some r.2.

(** [value] is true when the token is the value of the flag before it. *)
Fixpoint parseTokens (flags : flagset) (value : bool) (toks : list string)
    : list string * option error :=
  match toks with
  | [] =>
    if value then ([], Some (errorString "flag needs an argument")) else ([], None)
  | tok :: rest =>
    if value then parseTokens flags false rest
    else if negb (strings_HasPrefix tok "-") || String.eqb tok "-" then (toks, None)
    else if String.eqb tok "--" then (rest, None)
    else
      match lookupFlag flags (undash tok) with
      | Some f => parseTokens flags (negb (String.eqb (f_typ f) "")) rest
      | None =>
        if String.eqb (undash tok) "help" || String.eqb (undash tok) "h"
        then (rest, Some flag_ErrHelp)
        else (rest, Some (errorString ("flag provided but not defined: -" +:+ undash tok)))
      end
  end.

Definition flags : FlagPackage := {|
  FlagSet := flagset;
  NewFlagSet := {| declared := []; remaining := [] |};
  Parse := fun fl toks =>
    let '(rest, err) := parseTokens fl false toks in
    ({| declared := declared fl; remaining := rest |}, err);
  Args := remaining;
  Flag := flagdecl;
  VisitAll := declared;
  flag_Name := f_name;
  flag_DefValue := f_default;
  UnquoteUsage := fun f => (f_typ f, f_usage f);
  zeroValueString := f_zero;
  fmt_quote := fun s => dquote +:+ s +:+ dquote;
  tabwriter_Flush := fun text => (text, None);
|}.

#[local] Existing Instance flags.

Definition leaf (name : string) : Command :=
  {| Name := name; Short := None; Long := None; Foot := None; Commands := None;
     Flags := None; PersistentFlags := None; Run := None |}.

(** [simpleCommand]: runnable, with a long description and a flag. *)
Definition simpleCommand : Command :=
  {| Name := "simple"; Short := None; Long := Some "Example application."; Foot := None;
     Commands := None;
     Flags := Some (declare (mkFlag "name" "string" "your name" "World" ""));
     PersistentFlags := None;
     Run := Some (fun _ _ => None) |}.

(** [notRunnableCommand]: a help topic. *)
Definition notRunnableCommand : Command :=
  {| Name := "not-runnable"; Short := Some "command containing a help topic";
     Long := Some "This is a not so long, multiline help topic."; Foot := None;
     Commands := None; Flags := None; PersistentFlags := None; Run := None |}.

(** [unimplementedCommand]: only a name. *)
Definition unimplementedCommand : Command := leaf "unimplemented".

(** [rootCommand]: two children, a long description and a footer. *)
Definition rootCommand : Command :=
  {| Name := "app"; Short := None; Long := Some "Example application.";
     Foot := Some "Example: add anything here.";
     Commands := Some [notRunnableCommand; unimplementedCommand];
     Flags := None; PersistentFlags := None; Run := None |}.

(** [badRootCommand]: the same child twice. *)
Definition badRootCommand : Command :=
  {| Name := "bad"; Short := None; Long := None; Foot := None;
     Commands := Some [simpleCommand; simpleCommand];
     Flags := None; PersistentFlags := None; Run := None |}.

Definition innerCommand : Command :=
  {| Name := "inner"; Short := None; Long := None; Foot := None;
     Commands := Some [notRunnableCommand; simpleCommand];
     Flags := None; PersistentFlags := None; Run := None |}.

(** [rootCommandWithFlags]: runnable and a parent. *)
Definition rootCommandWithFlags : Command :=
  {| Name := "cmd"; Short := None; Long := None; Foot := None;
     Commands := Some [notRunnableCommand; innerCommand];
     Flags := Some (declare (mkFlag "planet" "string" "name of the planet" "Earth" ""));
     PersistentFlags := None;
     Run := Some (fun _ _ => None) |}.

(** [persistentFlagsCommand] as a root: [simpleCommand] with persistent
    flags. *)
Definition persistentFlagsCommand : Command :=
  {| Name := "simple"; Short := None; Long := Some "Example application."; Foot := None;
     Commands := None;
     Flags := Some (declare (mkFlag "name" "string" "your name" "World" ""));
     PersistentFlags := Some (declare (mkFlag "verbose" "" "verbose mode" "false" "false"));
     Run := Some (fun _ _ => None) |}.

Definition program (root : Command) : Program :=
  {| Root := Some root; GlobalFlags := None; Output := Some (user_Writer 0); fs := None |}.

End Sample.

(** The same flag package over an output that fails: every flush
    returns an error and lets nothing through. *)
Module BrokenSink.

Definition flags : FlagPackage := {|
  FlagSet := Sample.flagset;
  NewFlagSet := NewFlagSet (FlagPackage := Sample.flags);
  Parse := Parse (FlagPackage := Sample.flags);
  Args := Sample.remaining;
  Flag := Sample.flagdecl;
  VisitAll := Sample.declared;
  flag_Name := Sample.f_name;
  flag_DefValue := Sample.f_default;
  UnquoteUsage := fun f => (Sample.f_typ f, Sample.f_usage f);
  zeroValueString := Sample.f_zero;
  fmt_quote := fun s => dquote +:+ s +:+ dquote;
  tabwriter_Flush := fun _ => ("", Some (errorString "write failed"));
|}.

(** A root with a footer and a child that implements nothing. *)
Definition root : @Command flags :=
  {| Name := "app"; Short := None; Long := Some "Example application.";
     Foot := Some "Example: add anything here.";
     Commands := Some [ {| Name := "unimplemented"; Short := None; Long := None;
                           Foot := None; Commands := None; Flags := None;
                           PersistentFlags := None; Run := None |} ];
     Flags := None; PersistentFlags := None; Run := None |}.

End BrokenSink.



(** * Properties *)

(** ** Exit codes *)

(** Induction on errors that also gives the hypothesis for the error an
    [ExitError] wraps. *)
Lemma error_chain_ind (P : error → Prop) :
  (∀ s, P (errorString s)) →
  P flag_ErrHelp →
  (∀ code, P (ExitError code None)) →
  (∀ code inner, P inner → P (ExitError code (Some inner))) →
  (∀ ps, P (exec_ExitError ps)) →
  (∀ msg inner, P inner → P (wrapError msg inner)) →
  ∀ e, P e.
Proof.
  intros Hs Hh Hn He Hx Hw.
  fix IH 1.
  intros [s| |code [inner|]|ps|msg inner].
  - apply Hs.
  - apply Hh.
  - apply He, IH.
  - apply Hn.
  - apply Hx.
  - apply Hw, IH.
Qed.

(** The chain follows [errors.Unwrap]. *)
Lemma chain_Unwrap e :
  chain e = e :: match Unwrap e with Some inner => chain inner | None => [] end.
Proof. by destruct e as [s| |code [inner|]|ps|msg inner]. Qed.

(** [errors.As] finds the first [ExitError] of the chain. *)
Lemma As_ExitError_first e pre code inner post :
  chain e = pre ++ ExitError code inner :: post →
  (∀ x, x ∈ pre → ¬ is_ExitError x) →
  As_ExitError e = Some code.
Proof.
  revert pre. induction e as [s| |c|c i IH|ps|msg i IH] using error_chain_ind;
    intros pre Hc Hpre.
  all: destruct pre as [|x pre]; simpl in Hc; simplify_eq; simpl; try done.
  all: try (exfalso; apply (Hpre _ (list_elem_of_here _ _)); by eexists _, _).
  all: try by destruct pre.
  apply (IH pre); [done|]. intros y Hy. apply Hpre. by right.
Qed.

Lemma As_ExitError_none e :
  (∀ x, x ∈ chain e → ¬ is_ExitError x) → As_ExitError e = None.
Proof.
  induction e as [s| |c|c i IH|ps|msg i IH] using error_chain_ind; intros H; simpl; try done.
  - exfalso. apply (H (ExitError c None)); [simpl; left | by eexists _, _].
  - exfalso. apply (H (ExitError c (Some i))); [simpl; left | by eexists _, _].
  - apply IH. intros x Hx. apply H. simpl. by right.
Qed.

Lemma As_exec_ExitError_found e ps :
  (∀ x, x ∈ chain e → ¬ is_ExitError x) →
  exec_ExitError ps ∈ chain e →
  As_exec_ExitError e = Some ps.
Proof.
  induction e as [s| |c|c i IH|ps'|msg i IH] using error_chain_ind; intros H Hin;
    simpl in *.
  all: try (apply list_elem_of_singleton in Hin; by simplify_eq).
  - exfalso. apply (H (ExitError c (Some i))); [left | by eexists _, _].
  - apply elem_of_cons in Hin as [|Hin]; [done|].
    apply IH; [|done]. intros x Hx. apply H. by right.
Qed.

Lemma As_exec_ExitError_in e ps :
  As_exec_ExitError e = Some ps → exec_ExitError ps ∈ chain e.
Proof.
  induction e as [s| |c|c i IH|ps'|msg i IH] using error_chain_ind; intros H;
    simpl in *; simplify_eq; try (right; by apply IH). left.
Qed.

(** C7.  [ExitCode] maps the nil error to 0; an error that is or wraps
    an [ExitError] to the [Code] of the first [ExitError] of its chain;
    an error that wraps no [ExitError] and comes from a child process
    that exited normally to the exit status of that process; and every
    other error to 1. *)
Theorem ExitCode_mapping :
  ExitCode None = 0%Z
  ∧ (∀ e pre code inner post,
       chain e = pre ++ ExitError code inner :: post →
       (∀ x, x ∈ pre → ¬ is_ExitError x) →
       ExitCode (Some e) = code)
  ∧ (∀ e ps status,
       (∀ x, x ∈ chain e → ¬ is_ExitError x) →
       exec_ExitError ps ∈ chain e →
       exited_normally ps status →
       ExitCode (Some e) = status)
  ∧ (∀ e,
       (∀ x, x ∈ chain e → ¬ is_ExitError x) →
       (∀ ps status, exec_ExitError ps ∈ chain e → ¬ exited_normally ps status) →
       ExitCode (Some e) = 1%Z).
Proof.
  split_and!.
  - done.
  - intros e pre code inner post Hc Hpre. unfold ExitCode.
    by rewrite (As_ExitError_first _ _ _ _ _ Hc Hpre).
  - intros e ps status Hno Hin (ws & Hsys & Hex & Hst). unfold ExitCode.
    rewrite (As_ExitError_none _ Hno), (As_exec_ExitError_found _ _ Hno Hin), Hsys, Hex.
    done.
  - intros e Hno Hx. unfold ExitCode. rewrite (As_ExitError_none _ Hno).
    destruct (As_exec_ExitError e) as [ps|] eqn:Has; [|done].
    destruct (Sys ps) as [ws|] eqn:Hsys; [|done].
    destruct (Exited ws) eqn:Hex; [|done].
    exfalso. apply (Hx ps (ExitStatus ws)); [by apply As_exec_ExitError_in|].
    by exists ws.
Qed.

Section Properties.
Context `{FP : FlagPackage}.

(** ** Resolution *)

Lemma getCommand_Some cs name c :
  getCommand cs name = Some c → c ∈ cs ∧ Name c = name.
Proof.
  induction cs as [|x cs IH]; simpl; [done|].
  destruct (String.eqb name (Name x)) eqn:E.
  - intros [= <-]. apply String.eqb_eq in E. split; [left | done].
  - intros H. destruct (IH H). split; [by right | done].
Qed.

Lemma getCommand_first cs name c : first_named cs name c → getCommand cs name = Some c.
Proof.
  intros (l1 & l2 & -> & Hn & Hl1).
  induction l1 as [|x l1 IH]; simpl.
  - rewrite <- Hn, String.eqb_refl. done.
  - destruct (String.eqb name (Name x)) eqn:E.
    + apply String.eqb_eq in E. exfalso. apply (Hl1 x); [left | done].
    + apply IH. intros y Hy. apply Hl1. by right.
Qed.

Lemma getCommand_first_inv cs name c : getCommand cs name = Some c → first_named cs name c.
Proof.
  induction cs as [|x cs IH]; simpl; [done|].
  destruct (String.eqb name (Name x)) eqn:E.
  - intros [= <-]. apply String.eqb_eq in E. exists [], cs. split_and!; [done|done|].
    intros y Hy. by apply elem_of_nil in Hy.
  - intros H. destruct (IH H) as (l1 & l2 & -> & Hn & Hl1).
    exists (x :: l1), l2. split_and!; [done|done|].
    intros y [->|Hy]%elem_of_cons; [|by apply Hl1].
    apply String.eqb_neq in E. congruence.
Qed.

Lemma getCommand_None cs name :
  (∀ c, c ∈ cs → Name c ≠ name) → getCommand cs name = None.
Proof.
  induction cs as [|x cs IH]; simpl; [done|]. intros H.
  destruct (String.eqb name (Name x)) eqn:E.
  - apply String.eqb_eq in E. exfalso. apply (H x); [left | done].
  - apply IH. intros c Hc. apply H. by right.
Qed.

Lemma getCommand_None_inv cs name :
  getCommand cs name = None → ∀ c, c ∈ cs → Name c ≠ name.
Proof.
  induction cs as [|x cs IH]; simpl; intros H c Hc.
  - by apply elem_of_nil in Hc.
  - destruct (String.eqb name (Name x)) eqn:E; [done|].
    apply elem_of_cons in Hc as [->|Hc]; [|by apply IH].
    apply String.eqb_neq in E. congruence.
Qed.


Lemma getCommandArgs_prefix args : ∃ rest, args = getCommandArgs args ++ rest.
Proof.
  induction args as [|a args [rest IH]]; simpl; [by exists []|].
  destruct (strings_HasPrefix a "-"); [by eexists|].
  exists rest. simpl. by rewrite <- IH.
Qed.

Lemma walkCommand_loop_length cs names :
  (length (walkCommand_loop cs names) ≤ length names)%nat.
Proof.
  revert cs. induction names as [|n names IH]; intros cs; simpl; [done|].
  destruct (getCommand cs n); simpl; [|lia]. specialize (IH (getSubcommands c)). lia.
Qed.

(** The names of the commands the walk appends are the tokens it has
    matched. *)
Lemma walkCommand_loop_names cs names :
  map Name (walkCommand_loop cs names) = take (length (walkCommand_loop cs names)) names.
Proof.
  revert cs. induction names as [|n names IH]; intros cs; simpl; [done|].
  destruct (getCommand cs n) as [c|] eqn:E; simpl; [|done].
  apply getCommand_Some in E as [_ ->]. by rewrite IH.
Qed.

(** Every command of a trail but the first is a child of the one before. *)
Lemma walkCommand_loop_children c names i x y :
  (c :: walkCommand_loop (getSubcommands c) names) !! i = Some x →
  (c :: walkCommand_loop (getSubcommands c) names) !! S i = Some y →
  y ∈ getSubcommands x.
Proof.
  revert c i. induction names as [|n names IH]; intros c i; simpl.
  - destruct i; simpl; intros; simplify_eq.
  - destruct (getCommand (getSubcommands c) n) as [c'|] eqn:E.
    + destruct i as [|i]; simpl.
      * intros [= <-] [= <-]. by apply getCommand_Some in E as [? _].
      * apply IH.
    + destruct i; simpl; intros; simplify_eq.
Qed.

Lemma name_chain_walk c pre d rest :
  name_chain c pre d → stops d rest →
  let tl := walkCommand_loop (getSubcommands c) (getCommandArgs (pre ++ rest)) in
  length tl = length pre ∧ List.last (c :: tl) c = d.
Proof.
  intros Hch Hst. induction Hch as [c|c name c' names d Hpre Hfirst Hch IH]; simpl.
  - destruct rest as [|tok rest]; simpl; [done|].
    destruct (strings_HasPrefix tok "-") eqn:E; [done|]. simpl.
    destruct Hst as [Hst|Hst]; [congruence|].
    by rewrite (getCommand_None _ _ Hst).
  - rewrite Hpre. simpl. rewrite (getCommand_first _ _ _ Hfirst).
    destruct (IH Hst) as [Hlen Hlast]. simpl. split; [by rewrite Hlen|].
    simpl in Hlast.
    destruct (walkCommand_loop (getSubcommands c') (getCommandArgs (names ++ rest)));
      simpl in *; [done|].
    rewrite <- Hlast. clear. revert c0. induction l as [|y l IHl]; intros c0; simpl; [done|].
    apply IHl.
Qed.

(** Every argument vector splits into a chain of valid child names and
    a rest before which the chain stops. *)
Lemma name_chain_total c args :
  ∃ pre rest d, args = pre ++ rest ∧ name_chain c pre d ∧ stops d rest.
Proof.
  revert c. induction args as [|a args IH]; intros c.
  - exists [], [], c. split_and!; [done|constructor|done].
  - destruct (strings_HasPrefix a "-") eqn:E.
    { exists [], (a :: args), c. split_and!; [done|constructor|by left]. }
    destruct (getCommand (getSubcommands c) a) as [c'|] eqn:G.
    + destruct (IH c') as (pre & rest & d & -> & Hch & Hst).
      exists (a :: pre), rest, d. split_and!; [done| |done].
      econstructor; [done| |done]. by apply getCommand_first_inv.
    + exists [], (a :: args), c. split_and!; [done|constructor|].
      right. by apply getCommand_None_inv.
Qed.

(** C1.  For every root and argument vector the resolution (a total
    function) yields a trail that starts with the root and in which every
    later command is a declared child of the one before; the vector
    splits into a chain of valid child names and a rest that stops it;
    and for every such split with a chain of [k] names the trail has
    [k+1] commands, ends at the command the chain leads to, and the
    tokens handed on are exactly the rest, so [k] tokens are consumed. *)
Theorem resolution_trail (root : Command) (args : list string) :
  let trail := loadCommand root args in
  (∃ tl, trail = root :: tl)
  ∧ (∀ i c d, trail !! i = Some c → trail !! S i = Some d → d ∈ getSubcommands c)
  ∧ (∃ pre rest d, args = pre ++ rest ∧ name_chain root pre d ∧ stops d rest)
  ∧ (∀ k pre rest d,
       args = pre ++ rest → length pre = k → name_chain root pre d → stops d rest →
       length trail = k + 1
       ∧ terminal root trail = d
       ∧ breadcrumb trail = pre
       ∧ drop (length trail - 1) args = rest).
Proof.
  unfold loadCommand, walkCommand. simpl. split_and!.
  - by eexists.
  - intros i c d. apply walkCommand_loop_children.
  - apply name_chain_total.
  - intros k pre rest d -> Hk Hch Hst.
    destruct (name_chain_walk _ _ _ _ Hch Hst) as [Hlen Hlast].
    unfold terminal, breadcrumb. simpl. rewrite Hlen, Nat.sub_0_r.
    split_and!; [lia|done| |by rewrite drop_app_length].
    rewrite walkCommand_loop_names, Hlen.
    destruct (getCommandArgs_prefix (pre ++ rest)) as [r Hr].
    assert (length pre ≤ length (getCommandArgs (pre ++ rest)))%nat.
    { rewrite <- Hlen. apply walkCommand_loop_length. }
    rewrite <- (take_app_le _ r) by done. rewrite <- Hr. by rewrite take_app_length.
Qed.

(** ** Validation of the tree *)

(** Induction on the command tree. *)
Lemma Command_tree_ind (P : Command → Prop) :
  (∀ c, (∀ cs, Commands c = Some cs → Forall P cs) → P c) → ∀ c, P c.
Proof.
  intros H. fix IH 1. intros c. apply H.
  destruct c as [n sh lo fo [cs|] fl pf r]; simpl; intros cs' Heq; [|discriminate].
  injection Heq as <-.
  revert cs. fix IHcs 1. intros [|c cs].
  - constructor.
  - constructor; [apply IH | apply IHcs].
Qed.

Lemma checkDuplicated_unfold cmd trail :
  checkDuplicated cmd trail =
  match Commands cmd with
  | None => None
  | Some cs => checkDuplicated_range checkDuplicated trail cs ∅
  end.
Proof. by destruct cmd. Qed.

Lemma checkDuplicated_range_sound trail cs seen m msg :
  Forall panic_names_duplicate cs →
  (∀ n, n ∈ m ↔ n ∈ map Name seen) →
  checkDuplicated_range checkDuplicated trail cs m = Some msg →
  ∃ path, (∀ parent, Commands parent = Some (seen ++ cs) → duplicate_at parent path)
          ∧ msg = implemented_multiple_times (trail ++ path).
Proof.
  revert seen m. induction cs as [|c cs IH]; intros seen m HF Hm; simpl; [done|].
  apply Forall_cons in HF as [Hc HF].
  destruct (decide (Name c ∈ m)) as [Hin|Hnin].
  - intros [= <-]. exists [Name c]. split; [|done].
    intros parent Hp. apply Hm, list_elem_of_fmap in Hin as (x & Hx & Hin).
    apply list_elem_of_split in Hin as (l1 & l2 & ->).
    eapply (duplicate_here parent _ l1 x l2 c cs); [done| |done].
    by rewrite <- app_assoc.
  - destruct (checkDuplicated c (trail ++ [Name c])) as [msg'|] eqn:E.
    + intros [= <-]. destruct (Hc _ _ E) as (path & Hd & ->).
      exists (Name c :: path). split; [|by rewrite <- app_assoc].
      intros parent Hp. eapply duplicate_below; [done| |done].
      apply elem_of_app. right. left.
    + intros Hr.
      destruct (IH (seen ++ [c]) ({[Name c]} ∪ m) HF) as (path & Hd & ->); [|done|].
      * intros n. rewrite map_app, elem_of_union, elem_of_app, Hm. simpl.
        rewrite elem_of_singleton, list_elem_of_singleton. tauto.
      * exists path. split; [|done]. intros parent Hp. apply Hd.
        by rewrite <- app_assoc.
Qed.

Lemma checkDuplicated_range_complete trail cs m :
  Forall duplicate_panics cs →
  (∃ y, y ∈ cs ∧ Name y ∈ m)
  ∨ (∃ l1 x l2 y l3, cs = l1 ++ x :: l2 ++ y :: l3 ∧ Name x = Name y)
  ∨ (∃ c' path, c' ∈ cs ∧ duplicate_at c' path) →
  is_Some (checkDuplicated_range checkDuplicated trail cs m).
Proof.
  revert m. induction cs as [|c cs IH]; intros m HF Hrem; simpl.
  { destruct Hrem as [(y & Hy & _)|[(l1 & x & l2 & y & l3 & Hl & _)|(c' & path & Hc & _)]].
    - by apply elem_of_nil in Hy.
    - by destruct l1.
    - by apply elem_of_nil in Hc. }
  apply Forall_cons in HF as [Hc HF].
  destruct (decide (Name c ∈ m)) as [Hin|Hnin]; [done|].
  destruct (checkDuplicated c (trail ++ [Name c])) as [msg'|] eqn:E; [done|].
  apply IH; [done|].
  destruct Hrem as [(y & Hy & Hym)|[(l1 & x & l2 & y & l3 & Hl & Hxy)|(c' & path & Hc' & Hd)]].
  - apply elem_of_cons in Hy as [->|Hy]; [done|].
    left. exists y. split; [done|]. apply elem_of_union. by right.
  - destruct l1 as [|z l1]; simpl in Hl; injection Hl as -> ->.
    + left. exists y. split; [apply elem_of_app; right; left|].
      apply elem_of_union. left. by apply elem_of_singleton.
    + right. left. by exists l1, x, l2, y, l3.
  - apply elem_of_cons in Hc' as [->|Hc'].
    + destruct (Hc (ex_intro _ path Hd) (trail ++ [Name c])) as [msg Hmsg]. congruence.
    + right. right. by exists c', path.
Qed.

Lemma checkDuplicated_sound c : panic_names_duplicate c.
Proof.
  induction c as [c IH] using Command_tree_ind. intros trail msg.
  rewrite checkDuplicated_unfold. destruct (Commands c) as [cs|] eqn:E; [|done].
  intros Hr.
  destruct (checkDuplicated_range_sound trail cs [] ∅ msg (IH _ eq_refl)) as (path & Hd & ->);
    [|done|].
  - intros n. simpl. rewrite elem_of_empty, elem_of_nil. tauto.
  - exists path. split; [|done]. by apply Hd.
Qed.

Lemma checkDuplicated_complete c : duplicate_panics c.
Proof.
  induction c as [c IH] using Command_tree_ind. intros [path Hd] trail.
  rewrite checkDuplicated_unfold.
  inversion Hd as [c0 cs l1 x l2 y l3 Hcs Hl Hxy|c0 cs c' path' Hcs Hc' Hd']; subst;
    rewrite Hcs; apply checkDuplicated_range_complete; try by apply IH.
  - right. left. by exists l1, x, l2, y, l3.
  - right. right. by exists c', path'.
Qed.

(** C6.  If a sibling group anywhere in the tree of the root has two
    children with the same name, there is a duplicated path such that
    [Run], for every argument vector, panics with "command implemented
    multiple times" and the space-joined path from the root name to the
    duplicate name, before anything is done with the arguments: nothing
    is written, no action is invoked and no flag set is made. *)
Theorem duplicates_abort (p : Program) (root : Command) :
  Root p = Some root →
  (∃ path, duplicate_at root path) →
  ∃ path, duplicate_at root path ∧
    ∀ args,
      result (Program_Run p args) = Panic (implemented_multiple_times (Name root :: path))
      ∧ written (Program_Run p args) = ""
      ∧ invoked (Program_Run p args) = None
      ∧ fs (final (Program_Run p args)) = fs p.
Proof.
  intros Hroot Hdup.
  destruct (checkDuplicated_complete root Hdup [Name root]) as [msg Hmsg].
  destruct (checkDuplicated_sound root _ _ Hmsg) as (path & Hd & ->).
  exists path. split; [done|]. intros args.
  unfold Program_Run. simpl. rewrite Hroot, Hmsg. done.
Qed.

(** ** Flags, dispatch and help *)

(** [Run] on a program whose root is set and whose tree has no
    duplicate: the fields it leaves and what [runCommand] did. *)
Lemma Program_Run_valid p root args :
  Root p = Some root →
  checkDuplicated root [Name root] = None →
  let d := runCommand root (compose (option_list (GlobalFlags p))) args in
  Program_Run p args =
  {| final := {| Root := Root p; GlobalFlags := GlobalFlags p;
                 Output := Some (default os_Stdout (Output p)); fs := Some (d_fs d) |};
     written := d_written d; invoked := d_invoked d; result := Return (d_err d) |}.
Proof.
  intros Hroot Hdup. unfold Program_Run. simpl. rewrite Hroot, Hdup.
  unfold compose. by destruct (GlobalFlags p), (Output p).
Qed.

Lemma registerFlags_contributors p root trail :
  registerFlags root trail (compose (option_list (GlobalFlags p)))
  = compose (contributors p root trail).
Proof.
  unfold registerFlags, compose, contributors. rewrite !foldl_app.
  generalize (foldl (λ flags f, f flags) NewFlagSet (option_list (GlobalFlags p))).
  intros flags.
  assert (∀ fl, foldl (λ flags c, match PersistentFlags c with
                                   | Some f => f flags
                                   | None => flags
                                   end) fl trail
                = foldl (λ flags f, f flags) fl (omap PersistentFlags trail)) as ->.
  { induction trail as [|c trail IH]; intros fl; simpl; [done|].
    destruct (PersistentFlags c); simpl; apply IH. }
  by destruct (Flags (terminal root trail)).
Qed.

(** [Run] on a valid program is the dispatch on the composed flag set. *)
Lemma Program_Run_dispatch p root args :
  Root p = Some root →
  checkDuplicated root [Name root] = None →
  let trail := loadCommand root (skipHelpCommand args) in
  let d := dispatch root trail (compose (contributors p root trail)) args in
  Program_Run p args =
  {| final := {| Root := Root p; GlobalFlags := GlobalFlags p;
                 Output := Some (default os_Stdout (Output p)); fs := Some (d_fs d) |};
     written := d_written d; invoked := d_invoked d; result := Return (d_err d) |}.
Proof.
  intros Hroot Hdup. rewrite (Program_Run_valid _ _ _ Hroot Hdup). simpl.
  unfold runCommand. by rewrite registerFlags_contributors.
Qed.

(** C2 (amended).  For every invocation that passes validation, what
    [Run] does is the dispatch on one flag set, made fresh and given in
    this order to the global contributor (if present), to the persistent
    contributor of every command of the trail from the root to the
    terminal command, the terminal command included, and to the local
    contributor of the terminal command (if present); every contributor
    is applied to the flag set the ones before it left, whatever names
    they registered. *)
Theorem flags_composition (p : Program) (root : Command) (args : list string) :
  Root p = Some root →
  checkDuplicated root [Name root] = None →
  let trail := loadCommand root (skipHelpCommand args) in
  let d := dispatch root trail (compose (contributors p root trail)) args in
  fs (final (Program_Run p args)) = Some (d_fs d)
  ∧ written (Program_Run p args) = d_written d
  ∧ invoked (Program_Run p args) = d_invoked d
  ∧ result (Program_Run p args) = Return (d_err d).
Proof.
  intros Hroot Hdup. by rewrite (Program_Run_dispatch _ _ _ Hroot Hdup).
Qed.

Lemma skipHelpCommand_id args : head args ≠ Some "help" → skipHelpCommand args = args.
Proof.
  destruct args as [|a args]; simpl; [done|]. intros H.
  destruct (String.eqb a "help") eqn:E; [|done].
  apply String.eqb_eq in E. by subst.
Qed.

(** A command that is not runnable is dispatched to help. *)
Lemma dispatch_not_runnable root trail flags args :
  Run (terminal root trail) = None →
  dispatch root trail flags args = helped flags (runHelp root flags args).
Proof. intros H. unfold dispatch. rewrite H. by destruct (_ || _). Qed.

Lemma runHelp_helper root flags args :
  runHelp root flags args = helper_Run (helper_of root flags (skipHelpCommand args)).
Proof. done. Qed.

Lemma helper_Run_written h : (helper_Run h).1 = (helper_render h).1.
Proof.
  unfold helper_Run. destruct (helper_render h) as [out err]. simpl.
  by destruct (_ && _).
Qed.

Lemma helper_tabbed_topic h :
  h_Commands h = [] → h_usable h = false → helper_tabbed h = "".
Proof.
  intros Hc Hu. unfold helper_tabbed, helpCommands. rewrite Hc, Hu.
  by destruct (helper_command h).
Qed.



(** C5.  When the first argument is not [help] and the terminal command
    is runnable, the tokens after the consumed path are parsed against
    the composed flag set.  If this gives [flag.ErrHelp], the outcome is
    that of the help; if it gives another error, that error is returned
    as it is, nothing is written and the action is not invoked;
    otherwise the action is invoked with the arguments the parse left
    and its return value is the outcome. *)
Theorem flag_parsing_outcome (p : Program) (root : Command) (args : list string)
    (r : FlagSet → list string → option error) :
  Root p = Some root →
  checkDuplicated root [Name root] = None →
  head args ≠ Some "help" →
  let trail := loadCommand root args in
  Run (terminal root trail) = Some r →
  let parsed := Parse (compose (contributors p root trail)) (drop (length trail - 1) args) in
  let out := Program_Run p args in
  (parsed.2 = Some flag_ErrHelp →
     written out = (runHelp root parsed.1 args).1
     ∧ result out = Return (runHelp root parsed.1 args).2
     ∧ invoked out = None)
  ∧ (∀ e, parsed.2 = Some e → e ≠ flag_ErrHelp →
     result out = Return (Some e) ∧ written out = "" ∧ invoked out = None)
  ∧ (parsed.2 = None →
     invoked out = Some (Args parsed.1)
     ∧ result out = Return (r parsed.1 (Args parsed.1))
     ∧ written out = "").
Proof.
  intros Hroot Hdup Hhelp trail Hrun parsed out.
  subst out. rewrite (Program_Run_dispatch p root args Hroot Hdup). simpl.
  rewrite (skipHelpCommand_id _ Hhelp). fold trail. unfold dispatch.
  assert ((Nat.eqb (length args) 0 && negb (isRunnable root))
          || (negb (Nat.eqb (length args) 0) && bool_decide (head args = Some "help"))
          = false) as ->.
  { rewrite bool_decide_eq_false_2 by done. rewrite andb_false_r, orb_false_r.
    destruct args as [|a args]; [|done]. simpl.
    unfold isRunnable. subst trail. simpl in Hrun. unfold terminal in Hrun. simpl in Hrun.
    by rewrite Hrun. }
  rewrite Hrun. fold parsed. destruct parsed as [flags' err]. simpl.
  split_and!.
  - by intros ->.
  - intros e -> He. by destruct e.
  - by intros ->.
Qed.

Lemma last_cons_default (l : list Command) x d d' :
  List.last (x :: l) d = List.last (x :: l) d'.
Proof. revert x. induction l as [|y l IH]; intros x; [done|]. apply (IH y). Qed.




(** ** The text of the help *)

Lemma append_assoc (a b c : string) : (a +:+ b) +:+ c = a +:+ b +:+ c.
Proof.
  induction a as [|x a IH]; [done|].
  change (String x ((a +:+ b) +:+ c) = String x (a +:+ b +:+ c)). by f_equal.
Qed.



(** ** The program value *)


(** ** One error for one help *)

Lemma argumentsNonFlags_cut pre tok post :
  strings_HasPrefix tok "-" = true →
  argumentsNonFlags (pre ++ tok :: post) = argumentsNonFlags pre.
Proof.
  intros Htok. induction pre as [|a pre IH]; simpl; [by rewrite Htok|].
  by rewrite IH.
Qed.

(** C10.  [helper.Run] returns the error of the rendering whenever there
    is one, so that a missing implementation is reported and not an
    unknown command; its deferred check changes the error only when the
    rendering returned nil, the command is not runnable and the leading
    non-flag arguments are more than the matched trail; the arguments
    from the first flag-prefixed token on are not looked at; and for a
    runnable command the result is that of the rendering. *)
Theorem help_reports_one_error (h : helper) :
  (∀ e, (helper_render h).2 = Some e → (helper_Run h).2 = Some e)
  ∧ (h_usable h = false → h_Long h = None → h_Foot h = None →
     flush_succeeds (helper_tabbed h) →
     (helper_Run h).2 = Some (missing_implementation (h_trail h)))
  ∧ ((helper_Run h).2 ≠ (helper_render h).2 →
     (helper_render h).2 = None
     ∧ h_runnable h = false
     ∧ (length (h_trail h) < length (argumentsNonFlags (h_args h)))%nat
     ∧ (helper_Run h).2
       = Some (commandNotFound (h_binary h)
                 (take (length (h_trail h) + 1) (argumentsNonFlags (h_args h)))))
  ∧ (∀ pre tok post, strings_HasPrefix tok "-" = true →
     helper_Run (with_args h (pre ++ tok :: post)) = helper_Run (with_args h pre))
  ∧ (h_runnable h = true → helper_Run h = helper_render h).
Proof.
  split_and!.
  - intros e He. unfold helper_Run. destruct (helper_render h) as [out err].
    simpl in He. subst err. done.
  - intros Hu Hl Hf Hflush. unfold helper_Run, helper_render.
    unfold flush_succeeds in Hflush.
    destruct (tabwriter_Flush (helper_tabbed h)) as [flushed ferr]. simpl in Hflush.
    subst ferr. by rewrite Hu, Hl, Hf.
  - unfold helper_Run. destruct (helper_render h) as [out err]. simpl.
    destruct err as [e|]; simpl; [done|].
    destruct (h_runnable h); simpl; [done|].
    destruct (Nat.ltb_spec (length (h_trail h)) (length (argumentsNonFlags (h_args h))));
      simpl; done.
  - intros pre tok post Htok. unfold helper_Run.
    change (helper_render (with_args h (pre ++ tok :: post))) with (helper_render h).
    change (helper_render (with_args h pre)) with (helper_render h).
    simpl. by rewrite (argumentsNonFlags_cut _ _ _ Htok).
  - intros Hr. unfold helper_Run. destruct (helper_render h) as [out err].
    rewrite Hr. simpl. by rewrite andb_false_r.
Qed.

End Properties.

(** * Further properties of the code *)

Section Further.
Context `{FP : FlagPackage}.

(** ** The arguments and the trail *)

Lemma getCommandArgs_segments args :
  Forall (λ tok, strings_HasPrefix tok "-" = false) (getCommandArgs args).
Proof.
  induction args as [|a args IH]; simpl; [constructor|].
  destruct (strings_HasPrefix a "-") eqn:E; [constructor|]. by constructor.
Qed.

Lemma getCommandArgs_length args : (length (getCommandArgs args) ≤ length args)%nat.
Proof.
  induction args as [|a args IH]; simpl; [done|].
  destruct (strings_HasPrefix a "-"); simpl; lia.
Qed.

(** X3.  [getCommandArgs] returns the longest prefix of the arguments
    without a flag-prefixed token: the arguments are this prefix and a
    rest that is empty or starts with a flag-prefixed token.
    [argumentsNonFlags] of the help renderer computes the same list. *)
Theorem getCommandArgs_longest_prefix (args : list string) :
  ∃ rest,
    args = getCommandArgs args ++ rest
    ∧ Forall (λ tok, strings_HasPrefix tok "-" = false) (getCommandArgs args)
    ∧ (rest = [] ∨ ∃ tok tl, rest = tok :: tl ∧ strings_HasPrefix tok "-" = true)
    ∧ argumentsNonFlags args = getCommandArgs args.
Proof.
  induction args as [|a args (rest & Hargs & Hseg & Hrest & Heq)]; simpl.
  { exists []. split_and!; [done|constructor|by left|done]. }
  destruct (strings_HasPrefix a "-") eqn:E.
  - exists (a :: args). split_and!; [done|constructor| |done].
    right. by exists a, args.
  - exists rest. split_and!; [simpl; by rewrite <- Hargs|by constructor|done|by rewrite Heq].
Qed.

Lemma loadCommand_matched root args :
  let trail := loadCommand root args in
  breadcrumb trail = take (length trail - 1) (getCommandArgs args)
  ∧ (length trail - 1 ≤ length (getCommandArgs args))%nat.
Proof.
  unfold loadCommand, walkCommand, breadcrumb. simpl. rewrite Nat.sub_0_r.
  split; [apply walkCommand_loop_names | apply walkCommand_loop_length].
Qed.

(** X1.  The trail never has more commands after the root than there
    are arguments, so the slice [args[len(trail)-1:]] of [runCommand] is
    in range; the tokens before it are the names of the commands of the
    trail after the root, in order: every argument is either a matched
    name or handed on, none is dropped. *)
Theorem resolution_within_arguments (root : Command) (args : list string) :
  let trail := loadCommand root args in
  (length trail - 1 ≤ length args)%nat
  ∧ args = breadcrumb trail ++ drop (length trail - 1) args.
Proof.
  intros trail. destruct (loadCommand_matched root args) as [Hb Hl]. fold trail in Hb, Hl.
  pose proof (getCommandArgs_length args) as Hl'.
  split; [lia|]. rewrite Hb.
  destruct (getCommandArgs_prefix args) as [rest Hrest].
  rewrite <- (take_app_le _ rest) by done. rewrite <- Hrest. by rewrite take_drop.
Qed.

(** X2.  A command whose name starts with the flag prefix is never
    resolved: every command of the trail after the root has a name
    without the prefix, and its name is one of the arguments. *)
Theorem trail_names_not_flags (root : Command) (args : list string) (c : Command) :
  c ∈ tail (loadCommand root args) →
  strings_HasPrefix (Name c) "-" = false ∧ Name c ∈ args.
Proof.
  intros Hc. destruct (loadCommand_matched root args) as [Hb _].
  assert (Name c ∈ getCommandArgs args) as Hin.
  { assert (Name c ∈ breadcrumb (loadCommand root args)) as Hc'.
    { unfold breadcrumb. by apply (list_elem_of_fmap_2 Name). }
    rewrite Hb in Hc'. by apply (subseteq_take _ _ _ Hc'). }
  split.
  - pose proof (getCommandArgs_segments args) as HF.
    rewrite Forall_forall in HF. by apply HF.
  - destruct (getCommandArgs_prefix args) as [rest Hrest]. rewrite Hrest.
    apply elem_of_app. by left.
Qed.

Lemma getCommandArgs_cut pre tok rest :
  strings_HasPrefix tok "-" = true →
  getCommandArgs (pre ++ tok :: rest) = getCommandArgs pre.
Proof.
  intros Htok. induction pre as [|a pre IH]; simpl; [by rewrite Htok|].
  by rewrite IH.
Qed.

(** X16.  The resolution looks at nothing from the first flag-prefixed
    token on: the trail of arguments with such a token is the trail of
    the tokens before it, so a command name typed after a flag is not
    resolved, and arguments that start with a flag resolve to the
    root. *)
Theorem resolution_stops_at_flag (root : Command) (pre rest : list string) (tok : string) :
  strings_HasPrefix tok "-" = true →
  loadCommand root (pre ++ tok :: rest) = loadCommand root pre
  ∧ loadCommand root (tok :: rest) = [root].
Proof.
  intros Htok. unfold loadCommand. split.
  - by rewrite (getCommandArgs_cut pre tok rest Htok).
  - change (tok :: rest) with ([] ++ tok :: rest).
    by rewrite (getCommandArgs_cut [] tok rest Htok).
Qed.

(** ** What validation gives *)

Lemma getSubcommands_elem c d :
  c ∈ getSubcommands d ↔ ∃ cs, Commands d = Some cs ∧ c ∈ cs.
Proof.
  unfold getSubcommands. destruct (Commands d) as [cs|]; split.
  - intros H. by exists cs.
  - by intros (cs' & [= <-] & H).
  - intros H. by apply elem_of_nil in H.
  - by intros (cs' & [=] & _).
Qed.

Lemma descendant_sub d c e : c ∈ getSubcommands d → descendant c e → descendant d e.
Proof.
  intros Hc He. induction He as [|e e' _ IH He'].
  - eapply descendant_child; [apply descendant_root | done].
  - by eapply descendant_child.
Qed.

(** A list of commands has unique names or splits around two commands
    of the same name. *)
Lemma names_NoDup_or_split (cs : list Command) :
  NoDup (map Name cs)
  ∨ ∃ l1 x l2 y l3, cs = l1 ++ x :: l2 ++ y :: l3 ∧ Name x = Name y.
Proof.
  induction cs as [|c cs [IH|(l1 & x & l2 & y & l3 & -> & Hxy)]].
  - left. constructor.
  - destruct (decide (Name c ∈ map Name cs)) as [Hin|Hnin].
    + right. apply list_elem_of_fmap in Hin as (y & Hy & Hin).
      apply list_elem_of_split in Hin as (l2 & l3 & ->).
      by exists [], c, l2, y, l3.
    + left. simpl. by constructor.
  - right. by exists (c :: l1), x, l2, y, l3.
Qed.

Lemma names_split_not_NoDup (l1 l2 l3 : list Command) x y :
  Name x = Name y → ¬ NoDup (map Name (l1 ++ x :: l2 ++ y :: l3)).
Proof.
  intros Hxy Hnd. rewrite map_app in Hnd. apply NoDup_app in Hnd as (_ & _ & Hnd).
  simpl in Hnd. apply NoDup_cons in Hnd as [Hnin _]. apply Hnin.
  rewrite map_app. apply elem_of_app. right. simpl. rewrite Hxy. left.
Qed.

Lemma duplicate_at_not_unique root path : duplicate_at root path → ¬ unique_names root.
Proof.
  induction 1 as [c cs l1 x l2 y l3 Hcs -> Hxy|c cs c' path Hcs Hc' _ IH]; intros Hu.
  - apply (names_split_not_NoDup l1 l2 l3 x y Hxy).
    specialize (Hu c (descendant_root c)). unfold getSubcommands in Hu. by rewrite Hcs in Hu.
  - apply IH. intros d Hd. apply Hu. apply (descendant_sub c c' d); [|done].
    apply getSubcommands_elem. by exists cs.
Qed.

Lemma duplicate_at_descendant root d path :
  descendant root d → duplicate_at d path → ∃ path', duplicate_at root path'.
Proof.
  intros Hd. revert path. induction Hd as [|d c _ IH Hc]; intros path Hp; [by exists path|].
  apply getSubcommands_elem in Hc as (cs & Hcs & Hc).
  apply (IH (Name c :: path)). by eapply duplicate_below.
Qed.

Lemma checkDuplicated_unique root trail :
  checkDuplicated root trail = None ↔ unique_names root.
Proof.
  split.
  - intros Hnone d Hd.
    destruct (names_NoDup_or_split (getSubcommands d))
      as [|(l1 & x & l2 & y & l3 & Hsplit & Hxy)]; [done|].
    exfalso. assert (duplicate_at d [Name y]) as Hdup.
    { unfold getSubcommands in Hsplit. destruct (Commands d) as [cs|] eqn:Hcs.
      - by eapply (duplicate_here d cs l1 x l2 y l3).
      - by destruct l1. }
    destruct (duplicate_at_descendant root d _ Hd Hdup) as [path' Hp'].
    destruct (checkDuplicated_complete root (ex_intro _ path' Hp') trail) as [msg Hmsg].
    congruence.
  - intros Hu. destruct (checkDuplicated root trail) as [msg|] eqn:E; [|done].
    destruct (checkDuplicated_sound root _ _ E) as (path & Hd & _).
    by destruct (duplicate_at_not_unique root path Hd).
Qed.

(** X4.  [checkDuplicated] returns without panic exactly when no two
    children of any command of the tree have the same name, whatever the
    trail it is called with. *)
Theorem validation_unique_names (root : Command) (trail : list string) :
  checkDuplicated root trail = None ↔ unique_names root.
Proof. apply checkDuplicated_unique. Qed.

Lemma getCommand_unique cs c :
  NoDup (map Name cs) → c ∈ cs → getCommand cs (Name c) = Some c.
Proof.
  induction cs as [|x cs IH]; simpl; intros Hnd Hc; [by apply elem_of_nil in Hc|].
  apply NoDup_cons in Hnd as [Hx Hnd].
  apply elem_of_cons in Hc as [->|Hc]; [by rewrite String.eqb_refl|].
  destruct (String.eqb (Name c) (Name x)) eqn:E; [|by apply IH].
  apply String.eqb_eq in E. exfalso. apply Hx. rewrite <- E.
  by apply (list_elem_of_fmap_2 Name).
Qed.

(** X5.  In a tree that passes the validation of [Run], the look-up by
    name finds every child: for every command [d] of the tree and every
    child [c] of [d], [getCommand] on the children of [d] and the name
    of [c] returns [c] itself, so no child is shadowed by a sibling. *)
Theorem validated_lookup (root d c : Command) :
  checkDuplicated root [Name root] = None →
  descendant root d →
  c ∈ getSubcommands d →
  getCommand (getSubcommands d) (Name c) = Some c.
Proof.
  intros Hv Hd Hc. apply getCommand_unique; [|done].
  apply checkDuplicated_unique in Hv. by apply Hv.
Qed.

Lemma last_cons_shift (l : list Command) x d : List.last (x :: l) d = List.last l x.
Proof. destruct l as [|y l]; [done|]. apply (last_cons_default l y d x). Qed.

Lemma unique_names_path root cs rest :
  unique_names root →
  child_path root cs →
  Forall segment_name cs →
  stops (List.last cs root) rest →
  loadCommand root (map Name cs ++ rest) = root :: cs.
Proof.
  revert root. induction cs as [|x cs IH]; intros root Hu Hp Hseg Hst.
  - simpl in *. destruct (name_chain_walk root [] root rest (name_chain_nil root) Hst)
      as [Hlen _]. simpl in Hlen. unfold loadCommand, walkCommand.
    by destruct (walkCommand_loop _ _).
  - destruct Hp as [Hx Hp]. apply Forall_cons in Hseg as [Hxs Hseg].
    unfold loadCommand, walkCommand. simpl. unfold segment_name in Hxs. rewrite Hxs. simpl.
    rewrite (getCommand_unique _ _ (Hu root (descendant_root root)) Hx).
    f_equal. f_equal.
    assert (loadCommand x (map Name cs ++ rest) = x :: cs) as Hload.
    { apply IH; [|done|done|].
      - intros d Hd. apply Hu. by apply (descendant_sub root x d).
      - by rewrite <- (last_cons_shift cs x root). }
    unfold loadCommand, walkCommand in Hload. by injection Hload.
Qed.

(** X6.  In a tree that passes the validation of [Run], every command
    is reached by its path of names: for commands [cs] that form a path
    of children below the root and whose names have no flag prefix, the
    names of [cs], followed by arguments that stop the resolution,
    resolve to the trail of the root and [cs]. *)
Theorem validated_path_resolves (root : Command) (cs : list Command) (rest : list string) :
  checkDuplicated root [Name root] = None →
  child_path root cs →
  Forall segment_name cs →
  stops (List.last cs root) rest →
  loadCommand root (map Name cs ++ rest) = root :: cs.
Proof.
  intros Hv. apply unique_names_path. by apply checkDuplicated_unique in Hv.
Qed.


(** ** Help and run *)

Lemma runHelp_help_prefix root flags rest :
  runHelp root flags ("help" :: rest) = helper_Run (helper_of root flags rest).
Proof. done. Qed.

(** X8.  With [help] as first argument the action is never invoked and
    the arguments are not parsed: exactly one [help] is stripped, the
    flag set left is the one composed for the command the rest resolves
    to, and the text and the error are those of the help of that
    command. *)
Theorem help_prefix_outcome (p : Program) (root : Command) (rest : list string) :
  Root p = Some root →
  checkDuplicated root [Name root] = None →
  let flags := compose (contributors p root (loadCommand root rest)) in
  let out := Program_Run p ("help" :: rest) in
  invoked out = None
  ∧ fs (final out) = Some flags
  ∧ written out = (helper_Run (helper_of root flags rest)).1
  ∧ result out = Return (helper_Run (helper_of root flags rest)).2.
Proof.
  intros Hroot Hdup flags out. subst out.
  rewrite (Program_Run_dispatch p root _ Hroot Hdup).
  change (skipHelpCommand ("help" :: rest)) with rest. fold flags.
  unfold dispatch. simpl. by rewrite runHelp_help_prefix.
Qed.

Lemma runCommand_help_prefix root flags rest :
  head rest ≠ Some "help" →
  Run (terminal root (loadCommand root rest)) = None →
  runCommand root flags ("help" :: rest) = runCommand root flags rest.
Proof.
  intros Hhelp Hrun. unfold runCommand.
  change (skipHelpCommand ("help" :: rest)) with rest.
  rewrite (skipHelpCommand_id _ Hhelp), (dispatch_not_runnable _ _ _ rest Hrun).
  unfold dispatch. simpl.
  rewrite runHelp_help_prefix, runHelp_helper. by rewrite (skipHelpCommand_id _ Hhelp).
Qed.

(** X9.  For a command that is not runnable, asking for help and
    invoking the command are the same call: when the arguments do not
    start with [help] and resolve to a command without [Run], [Run] with
    [help] before them does what [Run] with them does. *)
Theorem help_prefix_equivalent (p : Program) (rest : list string) :
  head rest ≠ Some "help" →
  (∀ root, Root p = Some root → Run (terminal root (loadCommand root rest)) = None) →
  Program_Run p ("help" :: rest) = Program_Run p rest.
Proof.
  intros Hhelp Hrun. unfold Program_Run. cbn [Root GlobalFlags Output fs].
  destruct (Root p) as [root|] eqn:Hroot; [|done]. specialize (Hrun root eq_refl).
  destruct (checkDuplicated root [Name root]); [done|].
  by rewrite (runCommand_help_prefix root _ rest Hhelp Hrun).
Qed.

(** X10.  The action is invoked only in one way: the arguments do not
    start with [help], the command they resolve to is runnable, the
    parse of the tokens after the path returned no error, the action got
    the arguments the parse left and its result is the outcome; and then
    nothing has been written to the output. *)
Theorem action_invoked_after_parse (p : Program) (args a : list string) :
  invoked (Program_Run p args) = Some a →
  written (Program_Run p args) = ""
  ∧ head args ≠ Some "help"
  ∧ ∃ root r flags',
      Root p = Some root
      ∧ Run (terminal root (loadCommand root args)) = Some r
      ∧ Parse (compose (contributors p root (loadCommand root args)))
              (drop (length (loadCommand root args) - 1) args) = (flags', None)
      ∧ a = Args flags'
      ∧ result (Program_Run p args) = Return (r flags' a)
      ∧ fs (final (Program_Run p args)) = Some flags'.
Proof.
  destruct (Root p) as [root|] eqn:Hroot;
    [|unfold Program_Run; simpl; by rewrite Hroot].
  destruct (checkDuplicated root [Name root]) as [msg|] eqn:Hdup;
    [unfold Program_Run; simpl; by rewrite Hroot, Hdup|].
  rewrite (Program_Run_dispatch p root args Hroot Hdup). simpl. unfold dispatch.
  destruct (_ || _) eqn:Hcond; [done|].
  assert (head args ≠ Some "help") as Hhelp.
  { destruct args as [|x args]; [done|]. simpl in Hcond.
    by apply bool_decide_eq_false in Hcond. }
  rewrite (skipHelpCommand_id _ Hhelp).
  destruct (Run (terminal root (loadCommand root args))) as [r|] eqn:Hrun; [|done].
  destruct (Parse _ _) as [flags' err] eqn:Hparse.
  destruct err as [e|]; [by destruct e|]. simpl. intros [= <-].
  split_and!; [done|done|]. by exists root, r, flags'.
Qed.

(** ** Exit codes of wrapped errors *)

(** X11.  Wrapping an error any number of times in errors that only
    add a message does not change its exit code. *)
Theorem ExitCode_wrap_transparent (msgs : list string) (e : error) :
  ExitCode (Some (foldr wrapError e msgs)) = ExitCode (Some e).
Proof. induction msgs as [|msg msgs IH]; [done|]. by rewrite <- IH. Qed.

(** ** A failing output *)

Lemma helper_Run_flush_error h flushed e :
  tabwriter_Flush (helper_tabbed h) = (flushed, Some e) →
  helper_Run h = (helper_long h +:+ helper_usage h +:+ flushed, Some e).
Proof. intros H. unfold helper_Run, helper_render. by rewrite H. Qed.

(** X12.  When the arguments resolve to a command that is not runnable
    and the flush of the tab writer fails, the outcome of [Run] is the
    error of the flush, whatever the command implements and however
    many arguments are unmatched: neither the missing implementation
    nor an unknown command is reported.  The long description, the
    usage line and what the flush let through have been written, the
    footer has not. *)
Theorem flush_error_outcome (p : Program) (root : Command) (args : list string)
    (flushed : string) (e : error) :
  Root p = Some root →
  checkDuplicated root [Name root] = None →
  let trail := loadCommand root (skipHelpCommand args) in
  let h := helper_of root (compose (contributors p root trail)) (skipHelpCommand args) in
  Run (terminal root trail) = None →
  tabwriter_Flush (helper_tabbed h) = (flushed, Some e) →
  result (Program_Run p args) = Return (Some e)
  ∧ written (Program_Run p args) = helper_long h +:+ helper_usage h +:+ flushed
  ∧ invoked (Program_Run p args) = None.
Proof.
  intros Hroot Hdup trail h Hrun Hflush.
  rewrite (Program_Run_dispatch p root args Hroot Hdup). simpl. fold trail.
  rewrite (dispatch_not_runnable _ _ _ _ Hrun). simpl.
  rewrite runHelp_helper. fold h. by rewrite (helper_Run_flush_error h flushed e Hflush).
Qed.

(** ** The earlier version *)

Lemma Legacy_walkCommand_loop c cs names :
  Legacy.walkCommand_loop c cs names
  = (List.last (c :: walkCommand_loop cs names) c, map Name (walkCommand_loop cs names)).
Proof.
  revert c cs. induction names as [|n names IH]; intros c cs; [done|]. simpl.
  destruct (getCommand cs n) as [c'|] eqn:E; [|done].
  rewrite IH. apply getCommand_Some in E as [_ <-]. simpl. f_equal.
  destruct (walkCommand_loop (getSubcommands c') names) as [|y l]; [done|].
  apply (last_cons_default l y c' c).
Qed.

Lemma Legacy_loadCommand root args :
  Legacy.loadCommand root args
  = (terminal root (loadCommand root args), breadcrumb (loadCommand root args)).
Proof.
  unfold Legacy.loadCommand, Legacy.walkCommand. destruct args as [|a args]; [done|].
  simpl Nat.eqb. cbv iota. by rewrite Legacy_walkCommand_loop.
Qed.

Lemma Legacy_runHelp root flags args : Legacy.runHelp root flags args = runHelp root flags args.
Proof.
  unfold Legacy.runHelp, Legacy.walkCommand. rewrite Legacy_walkCommand_loop.
  by rewrite runHelp_helper.
Qed.

Lemma registerFlags_no_persistent root trail flags :
  (∀ c, c ∈ trail → PersistentFlags c = None) →
  registerFlags root trail flags
  = match Flags (terminal root trail) with Some f => f flags | None => flags end.
Proof.
  intros Hnone. unfold registerFlags.
  assert (foldl (λ flags c, match PersistentFlags c with
                            | Some f => f flags
                            | None => flags
                            end) flags trail = flags) as ->; [|done].
  induction trail as [|c trail IH]; simpl; [done|].
  rewrite (Hnone c) by left. apply IH. intros c' Hc'. apply Hnone. by right.
Qed.

Lemma Legacy_runCommand root flags args :
  (∀ c, c ∈ loadCommand root (skipHelpCommand args) → PersistentFlags c = None) →
  Legacy.runCommand root flags args = runCommand root flags args.
Proof.
  intros Hnone. unfold Legacy.runCommand, runCommand.
  rewrite Legacy_loadCommand, (registerFlags_no_persistent _ _ _ Hnone).
  set (trail := loadCommand root (skipHelpCommand args)).
  set (flags' := match Flags (terminal root trail) with Some f => f flags | None => flags end).
  unfold dispatch. fold (terminal root trail).
  destruct (_ || _); [by rewrite Legacy_runHelp|].
  assert (length (breadcrumb trail) = length trail - 1) as Hlen.
  { unfold breadcrumb. rewrite length_map. generalize trail. intros [|x l]; simpl; lia. }
  rewrite Hlen.
  destruct (Nat.eqb (length trail - 1) 0 && negb (isSome (Run root))) eqn:Hcheck.
  - apply andb_true_iff in Hcheck as [Hl Hr]. apply Nat.eqb_eq in Hl.
    assert (terminal root trail = root) as ->.
    { subst trail. unfold loadCommand, walkCommand in *. simpl in Hl.
      rewrite Nat.sub_0_r in Hl. unfold terminal.
      by destruct (walkCommand_loop _ _). }
    destruct (Run root); [done|]. by rewrite Legacy_runHelp.
  - destruct (Run (terminal root trail)) as [r|]; [|by rewrite Legacy_runHelp].
    destruct (Parse _ _) as [fl err]. destruct err as [e|]; [|done].
    destruct e; try done. by rewrite Legacy_runHelp.
Qed.

(** X13.  The earlier version of [Run], from before persistent flags,
    and the present one do the same on every invocation whose trail has
    no command that implements [PersistentFlagSet]: the same panic or the
    same program value, text, action call and error. *)
Theorem legacy_agrees (p : Program) (args : list string) :
  (∀ root c, Root p = Some root →
             c ∈ loadCommand root (skipHelpCommand args) → PersistentFlags c = None) →
  Legacy.Program_Run p args = Program_Run p args.
Proof.
  intros Hnone. unfold Legacy.Program_Run, Program_Run. cbn [Root GlobalFlags Output fs].
  destruct (Root p) as [root|] eqn:Hroot; [|done].
  destruct (checkDuplicated root [Name root]); [done|].
  by rewrite (Legacy_runCommand root _ args (λ c, Hnone root c eq_refl)).
Qed.

(** ** The text of the help, again *)

Lemma append_nil_r (a : string) : a +:+ "" = a.
Proof.
  induction a as [|x a IH]; [done|].
  change (String x (a +:+ "") = String x a). by f_equal.
Qed.

Lemma helper_usage_topic h : h_usable h = false → helper_usage h = "".
Proof. intros Hu. unfold helper_usage. rewrite Hu. by destruct (helper_command h). Qed.

(** X14.  The help of a topic, a command that neither is runnable nor
    implements [Parent], is its long description and its footer, each
    with a newline, around what the flush of an empty tab writer gives:
    no usage line, no list of commands, no list of flags and no hint. *)
Theorem topic_help_text (root : Command) (flags : FlagSet) (args : list string) :
  let cmd := terminal root (loadCommand root (skipHelpCommand args)) in
  Run cmd = None →
  Commands cmd = None →
  flush_succeeds "" →
  (runHelp root flags args).1
  = match Long cmd with Some long => long +:+ nl | None => "" end
    +:+ (tabwriter_Flush "").1
    +:+ match Foot cmd with Some foot => foot +:+ nl | None => "" end.
Proof.
  intros cmd Hrun Hcs Hflush. rewrite runHelp_helper, helper_Run_written.
  set (h := helper_of root flags (skipHelpCommand args)).
  assert (h_usable h = false) as Hu.
  { change (isRunnable cmd || isParent cmd = false). unfold isRunnable, isParent.
    by rewrite Hrun, Hcs. }
  assert (h_Commands h = []) as Hc.
  { change (getSubcommands cmd = []). unfold getSubcommands. by rewrite Hcs. }
  unfold helper_render. rewrite (helper_tabbed_topic h Hc Hu), (helper_usage_topic h Hu).
  unfold helper_long. rewrite Hu, andb_false_r, append_nil_r.
  change (h_Long h) with (Long cmd). change (h_Foot h) with (Foot cmd).
  unfold flush_succeeds in Hflush. destruct (tabwriter_Flush "") as [flushed ferr].
  simpl in Hflush. subst ferr. simpl.
  destruct (negb (isSome (Long cmd)) && negb (isSome (Foot cmd))); simpl;
    by rewrite append_assoc.
Qed.

(** X15.  The text of the help depends on the arguments only through
    the trail they resolve to: two argument vectors that, after the help
    prefix, resolve to the same trail get the same text, whatever
    follows the matched names (an unmatched segment changes the error,
    not the text). *)
Theorem help_text_of_trail (root : Command) (flags : FlagSet) (a1 a2 : list string) :
  loadCommand root (skipHelpCommand a1) = loadCommand root (skipHelpCommand a2) →
  (runHelp root flags a1).1 = (runHelp root flags a2).1.
Proof.
  intros Htrail. rewrite !runHelp_helper, !helper_Run_written.
  assert (helper_of root flags (skipHelpCommand a1)
          = with_args (helper_of root flags (skipHelpCommand a2)) (skipHelpCommand a1)) as ->.
  { unfold helper_of. by rewrite Htrail. }
  done.
Qed.

End Further.

(** * The properties on the commands of the test suite *)

#[local] Existing Instance Sample.flags.
Import Sample.

Lemma not_ExitError_string s : ¬ is_ExitError (errorString s).
Proof. intros (code & inner & H). discriminate H. Qed.

Lemma not_ExitError_wrap msg e : ¬ is_ExitError (wrapError msg e).
Proof. intros (code & inner & H). discriminate H. Qed.

Lemma not_ExitError_exec ps : ¬ is_ExitError (exec_ExitError ps).
Proof. intros (code & inner & H). discriminate H. Qed.

(** The cases of the test of [ExitCode]: an [ExitError] with code 2
    (here wrapped once more), the error of a child process that exited
    with status 2, and a plain error. *)
Lemma ExitCode_mapping_witness :
  ExitCode (Some (wrapError "run" (ExitError 2 (Some (errorString "cannot find system"))))) = 2%Z
  ∧ ExitCode (Some (exec_ExitError {| Sys := Some {| Exited := true; ExitStatus := 2 |} |})) = 2%Z
  ∧ ExitCode (Some (errorString "cannot find error code")) = 1%Z.
Proof.
  destruct ExitCode_mapping as (_ & Hexit & Hexec & Hother). split_and!.
  - apply (Hexit _ [wrapError "run" (ExitError 2 (Some (errorString "cannot find system")))]
             2%Z (Some (errorString "cannot find system")) [errorString "cannot find system"]).
    + reflexivity.
    + intros x Hx. apply list_elem_of_singleton in Hx. subst x. apply not_ExitError_wrap.
  - apply (Hexec _ {| Sys := Some {| Exited := true; ExitStatus := 2 |} |}).
    + intros x Hx. apply list_elem_of_singleton in Hx. subst x. apply not_ExitError_exec.
    + left.
    + exists {| Exited := true; ExitStatus := 2 |}. split_and!; reflexivity.
  - apply Hother.
    + intros x Hx. apply list_elem_of_singleton in Hx. subst x. apply not_ExitError_string.
    + intros ps status Hx. apply list_elem_of_singleton in Hx. discriminate Hx.
Defined.

Lemma inner_simple_chain : name_chain rootCommandWithFlags ["inner"; "simple"] simpleCommand.
Proof.
  apply (name_chain_cons _ _ innerCommand); [reflexivity| |].
  { exists [notRunnableCommand], []. split_and!; [reflexivity|reflexivity|].
    intros x Hx. apply list_elem_of_singleton in Hx. subst x. discriminate. }
  apply (name_chain_cons _ _ simpleCommand); [reflexivity| |constructor].
  exists [notRunnableCommand], []. split_and!; [reflexivity|reflexivity|].
  intros x Hx. apply list_elem_of_singleton in Hx. subst x. discriminate.
Qed.

(** The arguments [inner simple -undefined]: two valid names, three
    commands on the trail, the flag handed on. *)
Lemma resolution_trail_witness :
  let trail := loadCommand rootCommandWithFlags ["inner"; "simple"; "-undefined"] in
  length trail = 3
  ∧ terminal rootCommandWithFlags trail = simpleCommand
  ∧ drop (length trail - 1) ["inner"; "simple"; "-undefined"] = ["-undefined"].
Proof.
  destruct (resolution_trail rootCommandWithFlags ["inner"; "simple"; "-undefined"])
    as (_ & _ & _ & H).
  destruct (H 2 ["inner"; "simple"] ["-undefined"] simpleCommand) as (H1 & H2 & _ & H4).
  - reflexivity.
  - reflexivity.
  - exact inner_simple_chain.
  - left. reflexivity.
  - split_and!; [exact H1|exact H2|exact H4].
Defined.

(** The test with two children named [simple]. *)
Lemma duplicates_abort_witness :
  ∃ path, duplicate_at badRootCommand path ∧
    ∀ args,
      result (Program_Run (program badRootCommand) args)
      = Panic (implemented_multiple_times ("bad" :: path))
      ∧ written (Program_Run (program badRootCommand) args) = ""
      ∧ invoked (Program_Run (program badRootCommand) args) = None
      ∧ fs (final (Program_Run (program badRootCommand) args)) = None.
Proof.
  apply (duplicates_abort (program badRootCommand) badRootCommand).
  - reflexivity.
  - exists ["simple"].
    apply (duplicate_here badRootCommand [simpleCommand; simpleCommand]
             [] simpleCommand [] simpleCommand []); reflexivity.
Defined.

(** A runnable root with persistent flags asked for help: the flag set
    of the call holds the persistent flag of the root, the terminal
    command of its own trail, before its local flag. *)
Lemma flags_composition_witness :
  let p := program persistentFlagsCommand in
  let trail := loadCommand persistentFlagsCommand (skipHelpCommand ["help"]) in
  let d := dispatch persistentFlagsCommand trail
             (compose (contributors p persistentFlagsCommand trail)) ["help"] in
  fs (final (Program_Run p ["help"])) = Some (d_fs d)
  ∧ map f_name (declared (d_fs d)) = ["verbose"; "name"].
Proof.
  split.
  - apply (flags_composition (program persistentFlagsCommand) persistentFlagsCommand ["help"]);
      reflexivity.
  - reflexivity.
Defined.

(** Against C2 as stated: on the same call the flag set that [Run]
    leaves is not the one composed from the ancestors only, which lacks
    the persistent flag of the root. *)
Lemma flags_ancestors_only_counterexample :
  let p := program persistentFlagsCommand in
  let trail := loadCommand persistentFlagsCommand (skipHelpCommand ["help"]) in
  let claimed := compose (contributors_ancestors_only p persistentFlagsCommand trail) in
  map f_name (declared claimed) = ["name"]
  ∧ (∀ flags, fs (final (Program_Run p ["help"])) = Some flags →
       map f_name (declared flags) = ["verbose"; "name"])
  ∧ fs (final (Program_Run p ["help"])) ≠ Some claimed.
Proof.
  split_and!.
  - reflexivity.
  - intros flags H. vm_compute in H. injection H as <-. reflexivity.
  - intros H. vm_compute in H. discriminate H.
Qed.




(** The tests "called with undefined flag" and [TestProgramGopher]. *)
Lemma flag_parsing_outcome_witness :
  let out := Program_Run (program simpleCommand) ["-undefined"] in
  (result out = Return (Some (errorString "flag provided but not defined: -undefined"))
   ∧ written out = "" ∧ invoked out = None)
  ∧ invoked (Program_Run (program simpleCommand) ["-name"; "Gopher"]) = Some [].
Proof.
  split.
  - destruct (flag_parsing_outcome (program simpleCommand) simpleCommand ["-undefined"]
                (fun _ _ => None)) as (_ & Herr & _); [reflexivity..|discriminate|reflexivity|].
    apply Herr; [reflexivity|discriminate].
  - destruct (flag_parsing_outcome (program simpleCommand) simpleCommand ["-name"; "Gopher"]
                (fun _ _ => None)) as (_ & _ & Hok); [reflexivity..|discriminate|reflexivity|].
    apply Hok. reflexivity.
Defined.




(** The helper of [unimplemented extra]: there is an argument more than
    the trail, and the error is the missing implementation. *)
Lemma help_reports_one_error_witness :
  let h := helper_of rootCommand NewFlagSet ["unimplemented"; "extra"] in
  (helper_Run h).2 = Some (missing_implementation ["unimplemented"])
  ∧ helper_Run (with_args h ["unimplemented"; "-v"; "extra"])
    = helper_Run (with_args h ["unimplemented"]).
Proof.
  destruct (help_reports_one_error
              (helper_of rootCommand NewFlagSet ["unimplemented"; "extra"]))
    as (_ & Hmiss & _ & Hcut & _).
  split.
  - apply Hmiss; reflexivity.
  - apply (Hcut ["unimplemented"] "-v" ["extra"]). reflexivity.
Defined.


(** ** Further properties on the commands of the test suite *)

Lemma trail_names_not_flags_witness :
  strings_HasPrefix (Name innerCommand) "-" = false ∧ Name innerCommand ∈ ["inner"; "-h"].
Proof.
  apply (trail_names_not_flags rootCommandWithFlags ["inner"; "-h"] innerCommand).
  change (innerCommand ∈ [innerCommand]). left.
Defined.

Lemma inner_descendant : descendant rootCommandWithFlags innerCommand.
Proof.
  apply (descendant_child _ rootCommandWithFlags); [constructor|].
  change (innerCommand ∈ [notRunnableCommand; innerCommand]). right. left.
Qed.

(** [simple] below [inner] is found by its name. *)
Lemma validated_lookup_witness :
  getCommand (getSubcommands innerCommand) "simple" = Some simpleCommand.
Proof.
  apply (validated_lookup rootCommandWithFlags innerCommand simpleCommand).
  - reflexivity.
  - exact inner_descendant.
  - change (simpleCommand ∈ [notRunnableCommand; simpleCommand]). right. left.
Defined.

Lemma validated_path_resolves_witness :
  loadCommand rootCommandWithFlags ["inner"; "simple"; "-undefined"]
  = [rootCommandWithFlags; innerCommand; simpleCommand].
Proof.
  apply (validated_path_resolves rootCommandWithFlags [innerCommand; simpleCommand]
           ["-undefined"]).
  - reflexivity.
  - split; [change (innerCommand ∈ [notRunnableCommand; innerCommand]); right; left|].
    split; [change (simpleCommand ∈ [notRunnableCommand; simpleCommand]); right; left|].
    exact I.
  - repeat constructor.
  - left. reflexivity.
Defined.


Lemma help_prefix_outcome_witness :
  invoked (Program_Run (program rootCommandWithFlags) ["help"; "inner"; "simple"]) = None.
Proof.
  apply (help_prefix_outcome (program rootCommandWithFlags) rootCommandWithFlags
           ["inner"; "simple"]); reflexivity.
Defined.

(** The tests "not-runnable command called with help" and without. *)
Lemma help_prefix_equivalent_witness :
  Program_Run (program rootCommand) ["help"; "not-runnable"]
  = Program_Run (program rootCommand) ["not-runnable"].
Proof.
  apply (help_prefix_equivalent (program rootCommand) ["not-runnable"]).
  - discriminate.
  - intros root [= <-]. reflexivity.
Defined.

Lemma action_invoked_after_parse_witness :
  written (Program_Run (program simpleCommand) ["-name"; "Gopher"]) = "".
Proof.
  apply (action_invoked_after_parse (program simpleCommand) ["-name"; "Gopher"] []).
  reflexivity.
Defined.

(** On an output that fails, invoking a command that implements
    nothing returns the error of the flush, not the missing
    implementation. *)
Lemma flush_error_outcome_witness :
  result (Program_Run (FP := BrokenSink.flags)
            {| Root := Some BrokenSink.root; GlobalFlags := None; Output := None; fs := None |}
            ["unimplemented"])
  = Return (Some (errorString "write failed")).
Proof.
  apply (flush_error_outcome (FP := BrokenSink.flags)
           {| Root := Some BrokenSink.root; GlobalFlags := None; Output := None; fs := None |}
           BrokenSink.root ["unimplemented"] "" (errorString "write failed"));
    reflexivity.
Defined.

Lemma legacy_agrees_witness :
  Legacy.Program_Run (program rootCommandWithFlags) ["inner"; "simple"; "-undefined"]
  = Program_Run (program rootCommandWithFlags) ["inner"; "simple"; "-undefined"].
Proof.
  apply (legacy_agrees (program rootCommandWithFlags) ["inner"; "simple"; "-undefined"]).
  intros root c [= <-] Hc.
  change (c ∈ [rootCommandWithFlags; innerCommand; simpleCommand]) in Hc.
  apply elem_of_cons in Hc as [->|Hc]; [reflexivity|].
  apply elem_of_cons in Hc as [->|Hc]; [reflexivity|].
  apply list_elem_of_singleton in Hc. subst c. reflexivity.
Defined.

(** The test "not-runnable command called with help". *)
Lemma topic_help_text_witness :
  (runHelp rootCommand NewFlagSet ["help"; "not-runnable"]).1
  = "This is a not so long, multiline help topic." +:+ nl.
Proof.
  apply (topic_help_text rootCommand NewFlagSet ["help"; "not-runnable"]); reflexivity.
Defined.

(** The test "command not found": the text is the help of the root. *)
Lemma help_text_of_trail_witness :
  (runHelp rootCommand NewFlagSet ["notfound"; "x"; "-v"]).1
  = (runHelp rootCommand NewFlagSet ["help"]).1.
Proof.
  apply (help_text_of_trail rootCommand NewFlagSet ["notfound"; "x"; "-v"] ["help"]).
  reflexivity.
Defined.

(** A flag before the name of a command: the trail is the root alone. *)
Lemma resolution_stops_at_flag_witness :
  loadCommand rootCommandWithFlags ["-planet"; "Mars"; "inner"] = [rootCommandWithFlags].
Proof.
  apply (resolution_stops_at_flag rootCommandWithFlags [] ["Mars"; "inner"] "-planet").
  reflexivity.
Defined.
